(** * trace/trace_code.py: the path collector and its report driver

    A shallow embedding of [collect_paths] and [main] over an explicit model
    of the directory tree that [os.walk] reads, followed by the properties
    of the repository's specification. POSIX conventions are used
    throughout: [os.sep] is a slash, [os.linesep] is a line feed, and
    [fnmatch] folds no case. *)

From Stdlib Require Import Ascii String.
From stdpp Require Import base list strings gmap.

(** * The program *)

(** ** Outcomes of Python calls: a value, or a raised [OSError] *)

Inductive OSError : Type :=
| FileNotFoundError
| PermissionError
| NotADirectoryError
| FileExistsError
| IsADirectoryError.

Inductive outcome (A : Type) : Type :=
| Return (a : A)
| Raise (err : OSError).
Arguments Return {A} a.
Arguments Raise {A} err.

#[global] Instance outcome_ret : MRet outcome := fun A a => Return a.
#[global] Instance outcome_bind : MBind outcome := fun A B f m =>
  match m with
  | Return a => f a
  | Raise err => Raise err
  end.

(** ** What the script uses of [str] and [posixpath] *)

Module Path.

Definition sep : string := "/".
Definition curdir : string := ".".

(** [s.startswith(d)] *)
Definition startswith (s d : string) : bool := String.prefix d s.

(** [s.endswith(t)]: [t] is [s] or ends the tail of [s]. *)
Fixpoint endswith (s t : string) : bool :=
  String.eqb s t ||
  match s with
  | EmptyString => false
  | String _ s' => endswith s' t
  end.

(** [posixpath.join(a, b)]:
<<
    if b.startswith(sep): path = b
    elif not path or path.endswith(sep): path += b
    else: path += sep + b
>> *)
Definition join (a b : string) : string :=
  if startswith b sep then b
  else if String.eqb a "" || endswith a sep then a +:+ b
  else a +:+ sep +:+ b.

(** [sep in s] *)
Fixpoint has_sep (s : string) : bool :=
  match s with
  | EmptyString => false
  | String c s' => Ascii.eqb c "/"%char || has_sep s'
  end.

(** [posixpath.basename(p)]: what follows the last slash. *)
Fixpoint basename (p : string) : string :=
  match p with
  | EmptyString => EmptyString
  | String c p' =>
      if has_sep p' then basename p'
      else if Ascii.eqb c "/"%char then p' else p
  end.

(** [posixpath.relpath(root, base_dir)] for a [root] that [os.walk] built
    from [base_dir] by joining the directory names [rel], one per level:
    both paths are made absolute and normalised, the components of
    [base_dir] are dropped from the front, and what is left is joined
    again with [join], or is [curdir] when nothing is left. *)
Definition relpath (rel : list string) : string :=
  match rel with
  | [] => curdir
  | r :: rs => foldl join r rs
  end.

End Path.

(** ** The directory tree

    An entry of a directory is a file (any non-directory) with its content,
    or a sub-directory with the outcome of [os.scandir] on it: its entries
    in the order the system enumerates them, or the [OSError] raised.
    Symbolic links are left out: [os.walk] does not follow them by default,
    so that a link to a directory adds no path to a scan. *)

#[local] Unset Elimination Schemes.
Inductive entry : Type :=
| File (name : string) (data : string)
| Dir (name : string) (scan : outcome (list entry)).
#[local] Set Elimination Schemes.

(** Induction over a tree, with the hypothesis available for every entry
    of a listed directory. *)
Section entry_induction.

Variable P : entry → Prop.
Hypothesis P_File : ∀ name data, P (File name data).
Hypothesis P_Denied : ∀ name err, P (Dir name (Raise err)).
Hypothesis P_Dir : ∀ name es, Forall P es → P (Dir name (Return es)).

Fixpoint entry_ind (e : entry) : P e :=
  match e with
  | File name data => P_File name data
  | Dir name (Raise err) => P_Denied name err
  | Dir name (Return es) =>
      P_Dir name es
        ((fix all (l : list entry) : Forall P l :=
            match l with
            | [] => @List.Forall_nil _ P
            | x :: l' => @List.Forall_cons _ P x l' (entry_ind x) (all l')
            end) es)
  end.

End entry_induction.

Definition entry_name (e : entry) : string :=
  match e with
  | File n _ => n
  | Dir n _ => n
  end.

Definition is_dir (e : entry) : bool :=
  match e with
  | File _ _ => false
  | Dir _ _ => true
  end.

(** The two lists [os.walk] fills while it reads a directory. *)
Definition dir_names (es : list entry) : list string :=
  entry_name <$> List.filter is_dir es.
Definition file_names (es : list entry) : list string :=
  entry_name <$> List.filter (fun e => negb (is_dir e)) es.

(** ** [os.walk], top-down *)

(** One item the generator yields, [(root, dirs, files)], together with the
    directory names that lead from the start of the walk to [root]. *)
Record visit : Type := Visit {
  v_root : string;
  v_rel : list string;
  v_dirs : list string;
  v_files : list string
}.

(** Run [f] on every element, in order, and chain the lists; the first
    raised error stops the loop. *)
Definition for_each {A B : Type} (f : A → outcome (list B)) : list A → outcome (list B) :=
  fix go (l : list A) : outcome (list B) :=
    match l with
    | [] => Return []
    | x :: l' => ys ← f x; zs ← go l'; Return (ys ++ zs)
    end.

Section walk.

(** [onerror] is the optional callback of [os.walk]: it returns, and the
    walk goes on, or it raises and the walk stops. [keep] is what the
    body of the caller's loop leaves in [dirs]: the caller edits the
    yielded list in place before the generator resumes, and the generator
    then walks the names that are left. *)
Variable onerror : option (OSError → outcome ()).
Variable keep : string → bool.

(** The body of the generator for one directory [top], whose
    [os.scandir] gives [scan]; [rec] walks a sub-directory. *)
Definition walk_dir (rec : string → list string → entry → outcome (list visit))
    (top : string) (rel : list string) (scan : outcome (list entry))
    : outcome (list visit) :=
  match scan with
  | Raise err =>
      (* except OSError as error: if onerror is not None: onerror(error); continue *)
      match onerror with
      | None => Return []
      | Some handler => _ ← handler err; Return []
      end
  | Return es =>
      (* yield top, dirs, nondirs; then the kept sub-directories, in order *)
      let dirs := List.filter keep (dir_names es) in
      below ← for_each (fun e =>
                 match e with
                 | Dir name _ => if keep name then rec top rel e else Return []
                 | File _ _ => Return []
                 end) es;
      Return (Visit top rel dirs (file_names es) :: below)
  end.

(** [new_path = join(top, dirname)], then the walk of [new_path]. *)
Fixpoint walk_entry (top : string) (rel : list string) (e : entry) {struct e}
    : outcome (list visit) :=
  match e with
  | File _ _ => Return []
  | Dir name scan => walk_dir walk_entry (Path.join top name) (rel ++ [name]) scan
  end.

Definition os_walk (top : string) (scan : outcome (list entry)) : outcome (list visit) :=
  walk_dir walk_entry top [] scan.

End walk.

(** ** The constants of the script *)

Definition IGNORE_DIRS : gset string :=
  {[ ".git"; ".gitignore"; ".next"; "node_modules"; ".vscode"; "docs" ]}.

Definition IGNORE_FILES : gset string :=
  {[ "package.json"; "package-lock.json"; "README.md"; "components.json";
     "tsconfig.json"; "next-env.d.ts"; "next.config.ts";
     "postcss.config.mjs"; "tailwind.config.ts"; ".env"; ".modified" ]}.

Definition LOGIC_PATTERNS : list string := ["*.ts"; "*.tsx"; "*.js"; "*.py"].
Definition LOGIC_DIRS : list string :=
  ["src/ai"; "src/lib"; "src/services"; "src/middleware"; "src/hooks"].
Definition STYLE_DIRS : list string := ["src/components"; "src/app"].

(** ** [collect_paths] *)

(** [dirs[:] = [d for d in dirs if d not in IGNORE_DIRS]] *)
Definition not_ignored_dir (d : string) : bool := bool_decide (d ∉ IGNORE_DIRS).

(** [any(rel.startswith(d) for d in dirs_include)] *)
Definition included (rel : string) (dirs_include : list string) : bool :=
  existsb (Path.startswith rel) dirs_include.

Section collector.

(** [fnmatchcase name pat]: whether [name] matches the glob [pat], as
    [fnmatch.fnmatchcase] decides it. *)
Variable fnmatchcase : string → string → bool.

(** [fnmatch.filter(names, pat)] *)
Definition fnmatch_filter (names : list string) (pat : string) : list string :=
  List.filter (fun name => fnmatchcase name pat) names.

(** The body of the loop over the walk, for one yielded item; [matches]
    is the list the loops append to. *)
Definition collect_visit (dirs_include patterns : list string)
    (matches : list string) (v : visit) : list string :=
  let rel := Path.relpath (v_rel v) in
  if included rel dirs_include then
    foldl (fun matches pattern =>
      foldl (fun matches filename =>
        if bool_decide (filename ∈ IGNORE_FILES) then matches
        else matches ++ [Path.join (v_root v) filename])
        matches (fnmatch_filter (v_files v) pattern))
      matches patterns
  else matches.

(** [collect_paths(base_dir, dirs_include, patterns)], run on the tree
    whose root [os.scandir(base_dir)] answers with [fs]. [os.walk] is
    called with its defaults, top-down and without [onerror], and the
    loop prunes [dirs] with [not_ignored_dir]. *)
Definition collect_paths (fs : outcome (list entry)) (base_dir : string)
    (dirs_include patterns : list string) : outcome (list string) :=
  visits ← os_walk None not_ignored_dir base_dir fs;
  Return (foldl (collect_visit dirs_include patterns) [] visits).

End collector.

(** [fnmatch.fnmatchcase] for the patterns that hold no bracket, which
    is all the script has: a star stands for any run of characters, a
    question mark for one character, every other character for itself,
    and the whole name must match. *)
Fixpoint glob (pat : string) : string → bool :=
  match pat with
  | EmptyString => fun name => String.eqb name ""
  | String c pat' =>
      if Ascii.eqb c "*" then
        fix star (name : string) : bool :=
          glob pat' name ||
          match name with
          | EmptyString => false
          | String _ name' => star name'
          end
      else fun name =>
        match name with
        | EmptyString => false
        | String a name' => (Ascii.eqb c "?" || Ascii.eqb a c) && glob pat' name'
        end
  end.

(** The matcher the samples are run with. *)
Definition glob_match (name pat : string) : bool := glob pat name.

(** ** The driver

    [main] acts on the working directory and on the standard output. A
    path below the working directory is addressed by its names; a
    directory that cannot be listed is taken to be out of reach
    altogether, so that nothing is created below it either. *)

Record world : Type := World {
  w_cwd : string;                   (* os.getcwd() *)
  w_root : outcome (list entry);    (* os.scandir(os.getcwd()) *)
  w_stdout : list string            (* the lines printed so far *)
}.

Definition io (A : Type) : Type := world → outcome A * world.

#[global] Instance io_ret : MRet io := fun A a w => (Return a, w).
#[global] Instance io_bind : MBind io := fun A B f m w =>
  match m w with
  | (Return a, w') => f a w'
  | (Raise err, w') => (Raise err, w')
  end.

Definition set_root (w : world) (es : list entry) : world :=
  World (w_cwd w) (Return es) (w_stdout w).

(** The entry of a listing that bears a name. *)
Definition find_entry (name : string) (es : list entry) : option entry :=
  List.find (fun e => String.eqb (entry_name e) name) es.

(** [put_entry e' es] puts [e'] in the place of the entry of its name, or
    at the end when the name is new. *)
Fixpoint put_entry (e' : entry) (es : list entry) : list entry :=
  match es with
  | [] => [e']
  | e :: es' =>
      if String.eqb (entry_name e) (entry_name e') then e' :: es'
      else e :: put_entry e' es'
  end.

Definition linesep : string := String "010" EmptyString.

Definition getcwd : io string := fun w => (Return (w_cwd w), w).

Definition print (line : string) : io () := fun w =>
  (Return (), World (w_cwd w) (w_root w) (w_stdout w ++ [line])).

(** [os.makedirs(join(os.getcwd(), dir), exist_ok=True)] *)
Definition makedirs_exist_ok (dir : string) : io () := fun w =>
  match w_root w with
  | Raise err => (Raise err, w)
  | Return es =>
      match find_entry dir es with
      | None => (Return (), set_root w (es ++ [Dir dir (Return [])]))
      | Some (Dir _ _) => (Return (), w)
      | Some (File _ _) => (Raise FileExistsError, w)
      end
  end.

(** An action on the listing of the directory [dir] of the working
    directory. *)
Definition in_dir {A : Type} (dir : string)
    (act : list entry → outcome (A * list entry)) : io A := fun w =>
  match w_root w with
  | Raise err => (Raise err, w)
  | Return es =>
      match find_entry dir es with
      | None => (Raise FileNotFoundError, w)
      | Some (File _ _) => (Raise NotADirectoryError, w)
      | Some (Dir _ (Raise err)) => (Raise err, w)
      | Some (Dir _ (Return des)) =>
          match act des with
          | Raise err => (Raise err, w)
          | Return (a, des') =>
              (Return a, set_root w (put_entry (Dir dir (Return des')) es))
          end
      end
  end.

(** [open(join(os.getcwd(), dir, name), 'w')]: the file is created, or
    emptied when it exists. The handle is the place of the file. *)
Definition open_w (dir name : string) : io (string * string) :=
  in_dir dir (fun des =>
    match find_entry name des with
    | Some (Dir _ _) => Raise IsADirectoryError
    | _ => Return ((dir, name), put_entry (File name "") des)
    end).

(** [f.write(text)] *)
Definition write (f : string * string) (text : string) : io () :=
  in_dir f.1 (fun des =>
    match find_entry f.2 des with
    | Some (File _ data) => Return ((), put_entry (File f.2 (data +:+ text)) des)
    | Some (Dir _ _) => Raise IsADirectoryError
    | None => Raise FileNotFoundError
    end).

(** [for x in l: body(x)] *)
Fixpoint for_ {A : Type} (l : list A) (body : A → io ()) : io () :=
  match l with
  | [] => mret ()
  | x :: l' => body x;; for_ l' body
  end.

Section driver.

Variable fnmatchcase : string → string → bool.

(** [collect_paths] reads the tree of the working directory. *)
Definition collect (base_dir : string) (dirs_include patterns : list string)
    : io (list string) := fun w =>
  (collect_paths fnmatchcase (w_root w) base_dir dirs_include patterns, w).

Definition main : io () :=
  repo_path ← getcwd;
  let output_dir := Path.join repo_path "trace" in
  makedirs_exist_ok "trace";;
  logic_files ← collect repo_path LOGIC_DIRS LOGIC_PATTERNS;
  let logic_output := Path.join output_dir "logic_files.txt" in
  (f ← open_w "trace" "logic_files.txt";
   for_ logic_files (fun path => write f (path +:+ linesep)));;
  let combined_dirs := LOGIC_DIRS ++ STYLE_DIRS in
  all_files ← collect repo_path combined_dirs LOGIC_PATTERNS;
  let combined_output := Path.join output_dir "logic_style_files.txt" in
  (f ← open_w "trace" "logic_style_files.txt";
   for_ all_files (fun path => write f (path +:+ linesep)));;
  print ("Logic file list saved to: " +:+ logic_output);;
  print ("Logic+Style file list saved to: " +:+ combined_output).

End driver.

(** * The vocabulary of the properties *)

(** ** The walk and the collector as lists

    With no [onerror] nothing is raised, so the walk is a plain list of
    visits, and the nested loops of [collect_paths] append one block of
    paths per visit. *)

Section pure_walk.

Variable keep : string → bool.

Definition descend (rec : string → list string → entry → list visit)
    (top : string) (rel : list string) (e : entry) : list visit :=
  match e with
  | Dir name _ => if keep name then rec top rel e else []
  | File _ _ => []
  end.

Definition visits_dir (rec : string → list string → entry → list visit)
    (top : string) (rel : list string) (scan : outcome (list entry)) : list visit :=
  match scan with
  | Raise _ => []
  | Return es =>
      Visit top rel (List.filter keep (dir_names es)) (file_names es)
        :: flat_map (descend rec top rel) es
  end.

Fixpoint visits_entry (top : string) (rel : list string) (e : entry) {struct e}
    : list visit :=
  match e with
  | File _ _ => []
  | Dir name scan => visits_dir visits_entry (Path.join top name) (rel ++ [name]) scan
  end.

Definition visits (top : string) (scan : outcome (list entry)) : list visit :=
  visits_dir visits_entry top [] scan.

End pure_walk.

Section blocks.

Variable fnmatchcase : string → string → bool.

(** The names of [files] that one pattern selects, in the order of [files]. *)
Definition selected (files : list string) (pattern : string) : list string :=
  List.filter (fun filename => bool_decide (filename ∉ IGNORE_FILES))
    (fnmatch_filter fnmatchcase files pattern).

(** The paths one visit adds: none when the directory is not included,
    else one group per pattern, in the order of [patterns]. *)
Definition block (dirs_include patterns : list string) (v : visit) : list string :=
  if included (Path.relpath (v_rel v)) dirs_include then
    flat_map (fun pattern => Path.join (v_root v) <$> selected (v_files v) pattern) patterns
  else [].

End blocks.

(** The order the specification words: the directories in the order of
    the walk and, within one directory, the selected files in the order
    the walk lists them. *)
Definition listing_order (fnmatchcase : string → string → bool)
    (dirs_include patterns : list string) (vs : list visit) : list string :=
  flat_map (fun v =>
    if included (Path.relpath (v_rel v)) dirs_include then
      Path.join (v_root v) <$>
        List.filter (fun filename =>
            existsb (fnmatchcase filename) patterns
            && bool_decide (filename ∉ IGNORE_FILES))
          (v_files v)
    else []) vs.

(** ** Files and directories of a tree *)

(** [dir_at es rel es']: from a directory listed as [es], the directory
    names [rel] lead, through directories that can be listed, to a
    directory listed as [es']. *)
Inductive dir_at : list entry → list string → list entry → Prop :=
| dir_at_here es : dir_at es [] es
| dir_at_below es name sub rel es' :
    Dir name (Return sub) ∈ es → dir_at sub rel es' →
    dir_at es (name :: rel) es'.

(** A file named [f] lies in the directory that [rel] leads to. *)
Definition file_at (es : list entry) (rel : list string) (f : string) : Prop :=
  ∃ es', dir_at es rel es' ∧ f ∈ file_names es'.

(** A name the file system can hold: not empty, not the two reserved
    names, no slash. *)
Definition valid_name (n : string) : bool :=
  negb (String.eqb n "") && negb (String.eqb n ".") && negb (String.eqb n "..")
  && negb (Path.has_sep n).

(** A well-formed tree: every name is valid and no directory holds two
    entries of the same name. *)
Fixpoint wf_entry (e : entry) : bool :=
  valid_name (entry_name e) &&
  match e with
  | File _ _ => true
  | Dir _ (Raise _) => true
  | Dir _ (Return es) =>
      forallb wf_entry es && bool_decide (NoDup (entry_name <$> es))
  end.

Definition wf_tree (es : list entry) : bool :=
  forallb wf_entry es && bool_decide (NoDup (entry_name <$> es)).

(** The tree as the walk can read it: a directory that cannot be listed
    is left out, at every depth. *)
Fixpoint listable (e : entry) : list entry :=
  match e with
  | File _ _ => [e]
  | Dir _ (Raise _) => []
  | Dir name (Return es) => [Dir name (Return (flat_map listable es))]
  end.

(** ** Paths *)

(** The path [os.walk] and [collect_paths] build for the names [names]
    below [base_dir]. *)
Definition path_of (base_dir : string) (names : list string) : string :=
  foldl Path.join base_dir names.

(** [base_dir] as the prefix of every path built below it. *)
Definition with_sep (a : string) : string :=
  if String.eqb a "" || Path.endswith a Path.sep then a else a +:+ Path.sep.

(** [s.split(sep)] *)
Fixpoint split_sep (s : string) : list string :=
  match s with
  | EmptyString => [EmptyString]
  | String c s' =>
      if Ascii.eqb c "/" then EmptyString :: split_sep s'
      else match split_sep s' with
           | [] => [String c EmptyString]
           | w :: ws => String c w :: ws
           end
  end.

(** The visit of the directory that [rel] leads to, for a walk that
    started at [top] after the names [rel0]. *)
Definition visit_of (keep : string → bool) (top : string) (rel0 rel : list string)
    (es' : list entry) : visit :=
  Visit (path_of top rel) (rel0 ++ rel)
    (List.filter keep (dir_names es')) (file_names es').

(** What the walk of one entry visits. *)
Definition visits_entry_spec (keep : string → bool) (e : entry) : Prop :=
  ∀ top rel0 v,
    v ∈ visits_entry keep top rel0 e ↔
    match e with
    | Dir name (Return es) =>
        ∃ rel es', dir_at es rel es' ∧ Forall (fun n => keep n = true) rel ∧
          v = visit_of keep (Path.join top name) (rel0 ++ [name]) rel es'
    | _ => False
    end.

(** ** Patterns *)

(** The number of entries of a list of patterns that a name matches. *)
Definition match_count (fnmatchcase : string → string → bool)
    (patterns : list string) (f : string) : nat :=
  length (List.filter (fun pattern => fnmatchcase f pattern) patterns).

(** How many times a path occurs in a list. *)
Definition occurrences (p : string) (l : list string) : nat :=
  count_occ String.string_dec l p.

(** A pattern without star or question mark. *)
Fixpoint literal (pat : string) : bool :=
  match pat with
  | EmptyString => true
  | String c pat' => negb (Ascii.eqb c "*") && negb (Ascii.eqb c "?") && literal pat'
  end.

(** ** Output files *)

(** The content of the file [name] of the directory [dir]. *)
Definition read_file (w : world) (dir name : string) : option string :=
  match w_root w with
  | Return es =>
      match find_entry dir es with
      | Some (Dir _ (Return des)) =>
          match find_entry name des with
          | Some (File _ data) => Some data
          | _ => None
          end
      | _ => None
      end
  | Raise _ => None
  end.

(** The text of a file that holds one path per line. *)
Definition lines (paths : list string) : string :=
  foldr (fun path text => path +:+ linesep +:+ text) "" paths.

(** The output directory can be written: [trace] is absent from the
    working directory, or is a directory that can be listed and holds no
    directory under the name of either output file. *)
Definition output_ready (es : list entry) : bool :=
  match find_entry "trace" es with
  | None => true
  | Some (Dir _ (Return des)) =>
      negb (from_option is_dir false (find_entry "logic_files.txt" des))
      && negb (from_option is_dir false (find_entry "logic_style_files.txt" des))
  | Some _ => false
  end.

(** The world in which the file [name] of [dir] holds [data], the rest
    being as in [es] and [des]. *)
Definition with_file (cwd : string) (es : list entry) (dir : string)
    (des : list entry) (name data : string) (out : list string) : world :=
  World cwd
    (Return (put_entry (Dir dir (Return (put_entry (File name data) des))) es))
    out.

(** ** Sample trees *)

(** The scenario of the specification: a manifest and a dependency
    directory at the root, a version-control directory below an included
    one. *)
Definition ex_tree : list entry :=
  [ File "package.json" "{}";
    Dir "node_modules" (Return [File "d.ts" ""]);
    Dir "src" (Return
      [ Dir "lib" (Return [File "a.ts" ""; Dir ".git" (Return [File "c.ts" ""])]);
        Dir "components" (Return [File "b.tsx" ""]) ]) ].

(** Two sibling directories whose names share the prefix [ai]. *)
Definition ex_prefix_tree : list entry :=
  [ Dir "src" (Return
      [ Dir "ai" (Return [File "flow.ts" ""]);
        Dir "ai-something" (Return [File "other.ts" ""]);
        Dir "lib" (Return [File "util.ts" ""]) ]) ].

(** A listable root with a sub-directory that cannot be listed. *)
Definition ex_denied_tree : list entry :=
  [ Dir "src" (Return
      [ Dir "ai" (Raise PermissionError);
        Dir "lib" (Return [File "util.ts" ""]) ]) ].

(** One included directory that lists a Python file before a TypeScript
    file. *)
Definition ex_order_tree : list entry :=
  [ Dir "src" (Return [ Dir "lib" (Return [File "a.py" ""; File "b.ts" ""]) ]) ].

(** An included directory with one file, for patterns that overlap. *)
Definition ex_overlap_tree : list entry :=
  [ Dir "src" (Return [ Dir "lib" (Return [File "a.ts" ""]) ]) ].

(** A tree in which [trace] holds a list of an earlier run. *)
Definition ex_rerun_tree : list entry :=
  [ Dir "trace" (Return [File "logic_files.txt" "stale"; File "notes.md" "kept"]);
    Dir "src" (Return
      [ Dir "lib" (Return [File "a.ts" ""]);
        Dir "components" (Return [File "b.tsx" ""]) ]) ].

(** ** Vocabulary of the further properties *)

(** The tree without the directories whose name is in [IGNORE_DIRS], at
    every depth. *)
Fixpoint without_ignored (e : entry) : list entry :=
  match e with
  | File _ _ => [e]
  | Dir name scan =>
      if not_ignored_dir name then
        [Dir name (match scan with
                   | Raise err => Raise err
                   | Return es => Return (flat_map without_ignored es)
                   end)]
      else []
  end.

(** The endings the patterns of the script ask for. *)
Definition logic_suffixes : list string := [".ts"; ".tsx"; ".js"; ".py"].

(** The listing of [trace] in a working directory, empty when there is
    none, and the working directory once [trace] is made. *)
Definition trace_listing (es : list entry) : list entry :=
  match find_entry "trace" es with
  | Some (Dir _ (Return des)) => des
  | _ => []
  end.

Definition with_trace (es : list entry) : list entry :=
  match find_entry "trace" es with
  | None => es ++ [Dir "trace" (Return [])]
  | Some _ => es
  end.

(** The working directory after a run that wrote the two lists. *)
Definition tree_after_run (logic combined : list string) (es : list entry)
    : list entry :=
  put_entry
    (Dir "trace" (Return
       (put_entry (File "logic_style_files.txt" (lines combined))
          (put_entry (File "logic_files.txt" (lines logic)) (trace_listing es)))))
    (with_trace es).

(** The two confirmation lines. *)
Definition confirmations (cwd : string) : list string :=
  [ "Logic file list saved to: "
      +:+ Path.join (Path.join cwd "trace") "logic_files.txt";
    "Logic+Style file list saved to: "
      +:+ Path.join (Path.join cwd "trace") "logic_style_files.txt" ].

(** A working directory in which [trace] is a file, and one in which the
    second output file is a directory. *)
Definition ex_trace_file_tree : list entry :=
  [ File "trace" "notes";
    Dir "src" (Return [ Dir "lib" (Return [File "a.ts" ""]) ]) ].

Definition ex_blocked_tree : list entry :=
  [ Dir "trace" (Return [Dir "logic_style_files.txt" (Return [])]);
    Dir "src" (Return [ Dir "lib" (Return [File "a.ts" ""]) ]) ].

(** * Properties *)

(** ** The walk without [onerror] *)

Lemma for_each_Return {A B : Type} (f : A → outcome (list B)) (g : A → list B) (l : list A) :
  Forall (fun x => f x = Return (g x)) l →
  for_each f l = Return (flat_map g l).
Proof.
  induction 1 as [|x l Hx _ IH]; simpl; [done|].
  rewrite Hx, IH. reflexivity.
Qed.

Lemma walk_entry_None keep top rel e :
  walk_entry None keep top rel e = Return (visits_entry keep top rel e).
Proof.
  revert top rel. induction e as [name data|name err|name es IH] using entry_ind;
    intros top rel; simpl; try done.
  rewrite (for_each_Return _ (descend keep (visits_entry keep)
                                (Path.join top name) (rel ++ [name]))); [done|].
  eapply Forall_impl; [exact IH|]. intros e He; simpl.
  destruct e as [|n sc]; simpl; [done|]. destruct (keep n); [apply He|done].
Qed.

Lemma os_walk_None keep top scan :
  os_walk None keep top scan = Return (visits keep top scan).
Proof.
  unfold os_walk, visits. destruct scan as [es|err]; simpl; [|done].
  rewrite (for_each_Return _ (descend keep (visits_entry keep) top [])); [done|].
  apply Forall_forall. intros e _. destruct e as [|n sc]; [done|].
  unfold descend; cbv beta iota.
  destruct (keep n); [apply walk_entry_None|done].
Qed.

(** ** The loops of [collect_paths] as blocks *)

Section collector_facts.

Variable fnmatchcase : string → string → bool.
Implicit Types (dirs_include patterns matches : list string) (v : visit).

Lemma foldl_append_filtered {A : Type} (skip : A → bool) (g : A → string)
    (l : list A) matches :
  foldl (fun acc x => if skip x then acc else acc ++ [g x]) matches l
  = matches ++ (g <$> List.filter (fun x => negb (skip x)) l).
Proof.
  revert matches. induction l as [|x l IH]; intros matches; simpl.
  - by rewrite app_nil_r.
  - rewrite IH. destruct (skip x); simpl; [done|].
    by rewrite <- app_assoc.
Qed.

Lemma collect_visit_block dirs_include patterns matches v :
  collect_visit fnmatchcase dirs_include patterns matches v
  = matches ++ block fnmatchcase dirs_include patterns v.
Proof.
  unfold collect_visit, block.
  destruct (included _ _); [|by rewrite app_nil_r].
  revert matches. induction patterns as [|pat pats IH]; intros matches; simpl.
  - by rewrite app_nil_r.
  - rewrite foldl_append_filtered, IH, <- app_assoc. do 2 f_equal.
    unfold selected. f_equal. apply filter_ext. intros f.
    rewrite bool_decide_not. reflexivity.
Qed.

Lemma foldl_collect_visit dirs_include patterns matches (vs : list visit) :
  foldl (collect_visit fnmatchcase dirs_include patterns) matches vs
  = matches ++ flat_map (block fnmatchcase dirs_include patterns) vs.
Proof.
  revert matches. induction vs as [|v vs IH]; intros matches; simpl.
  - by rewrite app_nil_r.
  - by rewrite IH, collect_visit_block, <- app_assoc.
Qed.

Lemma collect_paths_blocks fs base_dir dirs_include patterns :
  collect_paths fnmatchcase fs base_dir dirs_include patterns
  = Return (flat_map (block fnmatchcase dirs_include patterns)
              (visits not_ignored_dir base_dir fs)).
Proof.
  unfold collect_paths. rewrite os_walk_None. simpl.
  by rewrite foldl_collect_visit.
Qed.

End collector_facts.

(** ** Which directories the walk visits *)

Section visited.

Variable keep : string → bool.

Lemma elem_of_visits_dir es top rel0 v :
  Forall (visits_entry_spec keep) es →
  v ∈ visits_dir keep (visits_entry keep) top rel0 (Return es) ↔
  ∃ rel es', dir_at es rel es' ∧ Forall (fun n => keep n = true) rel ∧
    v = visit_of keep top rel0 rel es'.
Proof.
  intros IH. simpl. rewrite elem_of_cons, list_elem_of_In, in_flat_map. split.
  - intros [->|(e & He & Hv)].
    + exists [], es. split_and!; [constructor|constructor|].
      unfold visit_of, path_of. simpl. by rewrite app_nil_r.
    + apply list_elem_of_In in He, Hv.
      pose proof (proj1 (Forall_forall _ _) IH e He) as Hspec.
      destruct e as [|name sc]; simpl in Hv; [by apply elem_of_nil in Hv|].
      destruct (keep name) eqn:Hk; [|by apply elem_of_nil in Hv].
      apply Hspec in Hv. destruct sc as [sub|]; [|done].
      destruct Hv as (rel & es' & Hat & Hall & ->).
      exists (name :: rel), es'. split_and!.
      * by econstructor.
      * by constructor.
      * unfold visit_of, path_of. simpl. by rewrite <- app_assoc.
  - intros (rel & es' & Hat & Hall & ->). destruct Hat as [es|es name sub rel es' Hin Hat].
    + left. unfold visit_of, path_of. simpl. by rewrite app_nil_r.
    + right. exists (Dir name (Return sub)). split; [by apply list_elem_of_In|].
      apply list_elem_of_In. apply Forall_cons in Hall as [Hk Hall].
      simpl. rewrite Hk.
      pose proof (proj1 (Forall_forall _ _) IH _ Hin) as Hspec.
      apply Hspec. exists rel, es'. split_and!; [done|done|].
      unfold visit_of, path_of. simpl. by rewrite <- app_assoc.
Qed.

Lemma visits_entry_ok e : visits_entry_spec keep e.
Proof.
  induction e as [name data|name err|name es IH] using entry_ind;
    intros top rel0 v.
  - simpl. apply elem_of_nil.
  - simpl. apply elem_of_nil.
  - change (visits_entry keep top rel0 (Dir name (Return es)))
      with (visits_dir keep (visits_entry keep) (Path.join top name)
              (rel0 ++ [name]) (Return es)).
    by apply elem_of_visits_dir.
Qed.

Lemma elem_of_visits es top v :
  v ∈ visits keep top (Return es) ↔
  ∃ rel es', dir_at es rel es' ∧ Forall (fun n => keep n = true) rel ∧
    v = visit_of keep top [] rel es'.
Proof.
  apply elem_of_visits_dir, Forall_forall. intros e _. apply visits_entry_ok.
Qed.

End visited.

(** ** Strings and paths *)

Section path_facts.

Implicit Types (a b n s t : string) (c : ascii) (names : list string).

Lemma app_String c s t : String c s +:+ t = String c (s +:+ t).
Proof. reflexivity. Qed.

Lemma app_empty_l s : "" +:+ s = s.
Proof. reflexivity. Qed.

Lemma app_empty_r s : s +:+ "" = s.
Proof. induction s as [|c s IH]; [done|]. by rewrite app_String, IH. Qed.

Lemma string_app_assoc s t u : (s +:+ t) +:+ u = s +:+ t +:+ u.
Proof. induction s as [|c s IH]; [done|]. by rewrite !app_String, IH. Qed.

Lemma app_eq_empty s t : s +:+ t = "" → s = "" ∧ t = "".
Proof. destruct s; [done|]. rewrite app_String. discriminate. Qed.

Lemma startswith_app s d : Path.startswith (d +:+ s) d = true.
Proof.
  unfold Path.startswith. induction d as [|c d IH].
  - by destruct s.
  - rewrite app_String. simpl. by destruct (ascii_dec c c).
Qed.

Lemma startswith_spec s d : Path.startswith s d = true ↔ ∃ t, s = d +:+ t.
Proof.
  split; [|intros [t ->]; apply startswith_app].
  unfold Path.startswith. revert s. induction d as [|c d IH]; intros s H.
  - by exists s.
  - destruct s as [|c' s]; [done|]. simpl in H.
    destruct (ascii_dec c c') as [->|]; [|done].
    destruct (IH _ H) as [t ->]. by exists t.
Qed.

Lemma has_sep_app s t : Path.has_sep (s +:+ t) = Path.has_sep s || Path.has_sep t.
Proof.
  induction s as [|c s IH]; [done|].
  rewrite app_String. simpl. by rewrite IH, orb_assoc.
Qed.

Lemma endswith_sep_has_sep s : Path.endswith s Path.sep = true → Path.has_sep s = true.
Proof.
  induction s as [|c s IH]; [done|]. simpl.
  intros [H|H]%orb_true_iff.
  - destruct (Ascii.eqb c "/"); [done|]. by destruct s.
  - rewrite (IH H). apply orb_true_r.
Qed.

Lemma endswith_app_sep a n :
  n ≠ "" → Path.endswith (a +:+ n) Path.sep = Path.endswith n Path.sep.
Proof.
  intros Hn. induction a as [|c a IH]; [done|].
  rewrite app_String. cbn [Path.endswith]. rewrite IH.
  destruct (a +:+ n) as [|c' r] eqn:E; [by apply app_eq_empty in E as [_ ?]|].
  simpl. by destruct (Ascii.eqb c "/").
Qed.

Lemma valid_name_nonempty n : valid_name n = true → n ≠ "".
Proof. intros H ->. done. Qed.

Lemma valid_name_no_sep n : valid_name n = true → Path.has_sep n = false.
Proof.
  unfold valid_name. rewrite !andb_true_iff, !negb_true_iff. tauto.
Qed.

Lemma valid_name_not_abs n : valid_name n = true → Path.startswith n Path.sep = false.
Proof.
  intros H. apply valid_name_no_sep in H.
  destruct (Path.startswith n Path.sep) eqn:E; [|done].
  apply startswith_spec in E as [t ->]. done.
Qed.

(** Joining a valid name appends it, after a slash where one is due. *)
Lemma join_valid a n : valid_name n = true → Path.join a n = with_sep a +:+ n.
Proof.
  intros H. unfold Path.join, with_sep. rewrite (valid_name_not_abs _ H).
  destruct (_ || _); [done|]. by rewrite string_app_assoc.
Qed.

Lemma with_sep_after_name a n :
  valid_name n = true → with_sep (a +:+ n) = a +:+ n +:+ Path.sep.
Proof.
  intros H. unfold with_sep.
  rewrite (endswith_app_sep _ _ (valid_name_nonempty _ H)).
  destruct (Path.endswith n Path.sep) eqn:E.
  { apply endswith_sep_has_sep in E. by rewrite (valid_name_no_sep _ H) in E. }
  destruct (String.eqb_spec (a +:+ n) "") as [E'|_].
  { apply app_eq_empty in E' as [_ ->]. done. }
  simpl. by rewrite string_app_assoc.
Qed.

(** The path of a non-empty list of valid names below [base_dir]. *)
Lemma path_of_valid base n names :
  Forall (fun m => valid_name m = true) (n :: names) →
  path_of base (n :: names) = with_sep base +:+ String.concat Path.sep (n :: names).
Proof.
  unfold path_of. revert base n. induction names as [|m names IH]; intros base n Hv.
  - simpl. apply join_valid. by inversion Hv.
  - apply Forall_cons in Hv as [Hn Hv].
    change (foldl Path.join base (n :: m :: names))
      with (foldl Path.join (Path.join base n) (m :: names)).
    rewrite (IH _ _ Hv), (join_valid _ _ Hn), (with_sep_after_name _ _ Hn).
    change (String.concat Path.sep (n :: m :: names))
      with (n +:+ Path.sep +:+ String.concat Path.sep (m :: names)).
    by rewrite !string_app_assoc.
Qed.

(** The relative path of a directory is its names joined by slashes, and
    the path of the directory is [base_dir] followed by it. *)
Lemma relpath_valid n names :
  Forall (fun m => valid_name m = true) (n :: names) →
  Path.relpath (n :: names) = String.concat Path.sep (n :: names).
Proof.
  intros Hv. apply Forall_cons in Hv as [Hn Hv]. unfold Path.relpath.
  destruct names as [|m names]; [done|].
  change (foldl Path.join n (m :: names)) with (path_of n (m :: names)).
  rewrite (path_of_valid _ _ _ Hv).
  pose proof (with_sep_after_name "" n Hn) as E. rewrite !app_empty_l in E.
  rewrite E, string_app_assoc. reflexivity.
Qed.

Lemma path_of_relpath base n names :
  Forall (fun m => valid_name m = true) (n :: names) →
  path_of base (n :: names) = with_sep base +:+ Path.relpath (n :: names).
Proof. intros Hv. by rewrite relpath_valid, path_of_valid. Qed.

Lemma split_sep_cons s : ∃ w ws, split_sep s = w :: ws.
Proof.
  destruct s as [|c s]; simpl; [by eauto|].
  destruct (Ascii.eqb c "/"); [by eauto|]. destruct (split_sep s); eauto.
Qed.

Lemma split_sep_app n s :
  Path.has_sep n = false →
  split_sep (n +:+ s) =
    match split_sep s with
    | [] => [n]
    | w :: ws => (n +:+ w) :: ws
    end.
Proof.
  induction n as [|c n IH]; intros H.
  - rewrite app_empty_l. by destruct (split_sep_cons s) as (w & ws & ->).
  - simpl in H. apply orb_false_iff in H as [Hc Hn].
    rewrite app_String. simpl. rewrite Hc, (IH Hn).
    by destruct (split_sep s).
Qed.

Lemma split_sep_concat n names :
  Forall (fun m => Path.has_sep m = false) (n :: names) →
  split_sep (String.concat Path.sep (n :: names)) = n :: names.
Proof.
  revert n. induction names as [|m names IH]; intros n Hv.
  - simpl. inversion Hv as [|?? Hn _]; subst.
    rewrite <- (app_empty_r n) at 1. rewrite (split_sep_app _ _ Hn). simpl.
    by rewrite app_empty_r.
  - apply Forall_cons in Hv as [Hn Hv].
    change (String.concat Path.sep (n :: m :: names))
      with (n +:+ Path.sep +:+ String.concat Path.sep (m :: names)).
    rewrite (split_sep_app _ _ Hn).
    change (Path.sep +:+ String.concat Path.sep (m :: names))
      with (String "/" (String.concat Path.sep (m :: names))).
    cbn [split_sep]. simpl (Ascii.eqb _ _). cbv iota.
    rewrite (IH _ Hv). by rewrite app_empty_r.
Qed.

(** Distinct lists of valid names give distinct paths. *)
Lemma path_of_inj base names1 names2 :
  names1 ≠ [] → names2 ≠ [] →
  Forall (fun m => valid_name m = true) names1 →
  Forall (fun m => valid_name m = true) names2 →
  path_of base names1 = path_of base names2 → names1 = names2.
Proof.
  intros H1 H2 Hv1 Hv2 E.
  destruct names1 as [|n1 l1]; [done|]. destruct names2 as [|n2 l2]; [done|].
  rewrite !path_of_valid in E by done.
  apply String.app_inj in E.
  rewrite <- (split_sep_concat n1 l1), <- (split_sep_concat n2 l2), E; [done|..].
  - eapply Forall_impl; [exact Hv2|]. apply valid_name_no_sep.
  - eapply Forall_impl; [exact Hv1|]. apply valid_name_no_sep.
Qed.

End path_facts.

(** ** Well-formed trees *)

Lemma wf_tree_entry es e : wf_tree es = true → e ∈ es → wf_entry e = true.
Proof.
  unfold wf_tree. intros [H _]%andb_true_iff He.
  rewrite forallb_forall in H. by apply H, list_elem_of_In.
Qed.

Lemma wf_tree_sub es name sub :
  wf_tree es = true → Dir name (Return sub) ∈ es →
  valid_name name = true ∧ wf_tree sub = true.
Proof.
  intros H He. apply (wf_tree_entry _ _ H) in He. simpl in He.
  by apply andb_true_iff in He.
Qed.

Lemma wf_tree_dir_at es rel es' :
  wf_tree es = true → dir_at es rel es' →
  Forall (fun n => valid_name n = true) rel ∧ wf_tree es' = true.
Proof.
  intros H Hat. induction Hat as [es|es name sub rel es' Hin _ IH]; [done|].
  destruct (wf_tree_sub _ _ _ H Hin) as [Hn Hsub].
  destruct (IH Hsub) as [Hrel Hes']. split; [by constructor|done].
Qed.

Lemma elem_of_file_names es f : f ∈ file_names es ↔ ∃ data, File f data ∈ es.
Proof.
  unfold file_names. rewrite list_elem_of_fmap. split.
  - intros (e & -> & He). apply list_elem_of_In, filter_In in He as [He Hd].
    destruct e as [n data|]; [|done]. exists data. by apply list_elem_of_In.
  - intros (data & He). exists (File f data). split; [done|].
    apply list_elem_of_In, filter_In. split; [by apply list_elem_of_In|done].
Qed.

Lemma wf_tree_file es f : wf_tree es = true → f ∈ file_names es → valid_name f = true.
Proof.
  intros H (data & He)%elem_of_file_names.
  apply (wf_tree_entry _ _ H) in He. simpl in He. by rewrite andb_true_r in He.
Qed.

Lemma wf_file_at es rel f :
  wf_tree es = true → file_at es rel f →
  Forall (fun n => valid_name n = true) (rel ++ [f]).
Proof.
  intros H (es' & Hat & Hf). destruct (wf_tree_dir_at _ _ _ H Hat) as [Hrel Hes'].
  apply Forall_app. split; [done|]. constructor; [|done].
  by apply (wf_tree_file es').
Qed.

(** ** Which paths are collected *)

Section membership.

Variable fnmatchcase : string → string → bool.
Implicit Types (dirs_include patterns : list string) (v : visit) (p f : string).

Lemma elem_of_selected files pattern f :
  f ∈ selected fnmatchcase files pattern ↔
  f ∈ files ∧ fnmatchcase f pattern = true ∧ f ∉ IGNORE_FILES.
Proof.
  unfold selected, fnmatch_filter.
  rewrite list_elem_of_In, !filter_In, <- list_elem_of_In, bool_decide_eq_true.
  tauto.
Qed.

Lemma elem_of_block dirs_include patterns v p :
  p ∈ block fnmatchcase dirs_include patterns v ↔
  included (Path.relpath (v_rel v)) dirs_include = true ∧
  ∃ pattern f, pattern ∈ patterns ∧ f ∈ v_files v ∧
    fnmatchcase f pattern = true ∧ (f ∉ IGNORE_FILES) ∧ p = Path.join (v_root v) f.
Proof.
  unfold block. destruct (included _ _).
  - rewrite list_elem_of_In, in_flat_map. split.
    + intros (pat & Hpat & Hp). apply list_elem_of_In in Hpat, Hp.
      apply list_elem_of_fmap in Hp as (f & -> & Hf).
      apply elem_of_selected in Hf as (? & ? & ?). split; [done|].
      by exists pat, f.
    + intros (_ & pat & f & Hpat & Hf & Hm & Hi & ->).
      exists pat. split; [by apply list_elem_of_In|].
      apply list_elem_of_In, list_elem_of_fmap. exists f. split; [done|].
      by apply elem_of_selected.
  - split; [by intros ?%elem_of_nil|by intros [? _]].
Qed.

Lemma not_ignored_dir_true d : not_ignored_dir d = true ↔ d ∉ IGNORE_DIRS.
Proof. unfold not_ignored_dir. apply bool_decide_eq_true. Qed.

(** A path is collected exactly when some file of the tree, reached
    through kept directories and lying in an included directory,
    matches a pattern and is not an ignored file. *)
Lemma elem_of_collected es base_dir dirs_include patterns p :
  p ∈ flat_map (block fnmatchcase dirs_include patterns)
        (visits not_ignored_dir base_dir (Return es)) ↔
  ∃ rel f pattern,
    file_at es rel f ∧ Forall (fun d => d ∉ IGNORE_DIRS) rel ∧
    included (Path.relpath rel) dirs_include = true ∧
    pattern ∈ patterns ∧ fnmatchcase f pattern = true ∧ (f ∉ IGNORE_FILES) ∧
    p = Path.join (path_of base_dir rel) f.
Proof.
  rewrite list_elem_of_In, in_flat_map. split.
  - intros (v & Hv & Hp). apply list_elem_of_In in Hv, Hp.
    apply elem_of_visits in Hv as (rel & es' & Hat & Hkeep & ->).
    apply elem_of_block in Hp as (Hinc & pat & f & Hpat & Hf & Hm & Hi & ->).
    simpl in *. exists rel, f, pat. split_and!; try done.
    + by exists es'.
    + eapply Forall_impl; [exact Hkeep|]. intros d. apply not_ignored_dir_true.
  - intros (rel & f & pat & (es' & Hat & Hf) & Hkeep & Hinc & Hpat & Hm & Hi & ->).
    exists (visit_of not_ignored_dir base_dir [] rel es'). split.
    + apply list_elem_of_In, elem_of_visits. exists rel, es'. split_and!; try done.
      eapply Forall_impl; [exact Hkeep|]. intros d. apply not_ignored_dir_true.
    + apply list_elem_of_In, elem_of_block. simpl. split; [done|].
      by exists pat, f.
Qed.

End membership.

(** ** The claims about [collect_paths] *)

(** The scenario of the specification: of [src/lib/a.ts],
    [src/components/b.tsx], [src/lib/.git/c.ts], [node_modules/d.ts] and
    [package.json], the first is the logic list, the first two are the
    combined list. *)
Example scenario :
  collect_paths glob_match (Return ex_tree) "/repo" LOGIC_DIRS LOGIC_PATTERNS
  = Return ["/repo/src/lib/a.ts"] ∧
  collect_paths glob_match (Return ex_tree) "/repo" (LOGIC_DIRS ++ STYLE_DIRS)
    LOGIC_PATTERNS
  = Return ["/repo/src/lib/a.ts"; "/repo/src/components/b.tsx"].
Proof. split; reflexivity. Qed.

Lemma sublist_List_filter {A : Type} (p : A → bool) (l : list A) :
  sublist (List.filter p l) l.
Proof.
  induction l as [|x l IH]; simpl; [done|].
  destruct (p x); by constructor.
Qed.

Lemma included_spec rel dirs_include :
  included rel dirs_include = true ↔
  ∃ d, d ∈ dirs_include ∧ Path.startswith rel d = true.
Proof.
  unfold included. rewrite existsb_exists. split.
  - intros (d & Hd & H). exists d. by rewrite list_elem_of_In.
  - intros (d & Hd & H). exists d. by rewrite <- list_elem_of_In.
Qed.

Lemma join_path_of base_dir rel f :
  Path.join (path_of base_dir rel) f = path_of base_dir (rel ++ [f]).
Proof. unfold path_of. by rewrite foldl_app. Qed.

(** C1. On a tree whose root can be listed, every collected path is the
    path of a file of the tree, and the path of a file of the tree is
    collected if and only if (a) the path of its directory relative to the
    root starts with one of the included prefixes, (b) its name matches one
    of the patterns, (c) its name is not in [IGNORE_FILES], and (d) none of
    the directory names between the root and the file is in [IGNORE_DIRS]. *)
Theorem collect_paths_selects
    (fnmatchcase : string → string → bool) (es : list entry)
    (base_dir : string) (dirs_include patterns : list string) :
  wf_tree es = true →
  ∃ l, collect_paths fnmatchcase (Return es) base_dir dirs_include patterns = Return l ∧
    (∀ p, p ∈ l → ∃ rel f, file_at es rel f ∧ p = Path.join (path_of base_dir rel) f) ∧
    (∀ rel f, file_at es rel f →
       Path.join (path_of base_dir rel) f ∈ l ↔
       (∃ d, d ∈ dirs_include ∧ Path.startswith (Path.relpath rel) d = true) ∧
       (∃ pattern, pattern ∈ patterns ∧ fnmatchcase f pattern = true) ∧
       (f ∉ IGNORE_FILES) ∧
       Forall (fun d => d ∉ IGNORE_DIRS) rel).
Proof.
  intros Hwf. eexists. split; [apply collect_paths_blocks|]. split.
  - intros p (rel & f & pat & Hat & _ & _ & _ & _ & _ & ->)%elem_of_collected.
    by exists rel, f.
  - intros rel f Hat. rewrite elem_of_collected, <- included_spec. split.
    + intros (rel' & f' & pat & Hat' & Hkeep & Hinc & Hpat & Hm & Hi & E).
      rewrite !join_path_of in E.
      apply path_of_inj in E; [|by destruct rel|by destruct rel'|by apply (wf_file_at es)..].
      apply app_inj_tail in E as [-> ->]. split_and!; try done. by exists pat.
    + intros (Hinc & (pat & Hpat & Hm) & Hi & Hkeep). by exists rel, f, pat.
Qed.

Lemma collect_paths_selects_witness :
  ∃ l, collect_paths glob_match (Return ex_tree) "/repo" LOGIC_DIRS LOGIC_PATTERNS = Return l ∧
    (∀ p, p ∈ l → ∃ rel f, file_at ex_tree rel f ∧ p = Path.join (path_of "/repo" rel) f) ∧
    (∀ rel f, file_at ex_tree rel f →
       Path.join (path_of "/repo" rel) f ∈ l ↔
       (∃ d, d ∈ LOGIC_DIRS ∧ Path.startswith (Path.relpath rel) d = true) ∧
       (∃ pattern, pattern ∈ LOGIC_PATTERNS ∧ glob_match f pattern = true) ∧
       (f ∉ IGNORE_FILES) ∧
       Forall (fun d => d ∉ IGNORE_DIRS) rel).
Proof. apply (collect_paths_selects glob_match ex_tree). reflexivity. Defined.

(** C6. A visited directory is included if and only if its relative path
    starts, as a plain string, with one of the included prefixes: it is one
    of them followed by any characters. The prefix [src/ai] includes the
    directory [src/ai-something] as it does [src/ai], and the files of both
    are collected. *)
Theorem included_plain_prefix :
  (∀ rel dirs_include,
     included rel dirs_include = true ↔
     ∃ d, d ∈ dirs_include ∧ ∃ rest, rel = d +:+ rest) ∧
  (∀ rel d, included rel [d] = true ↔ ∃ rest, rel = d +:+ rest) ∧
  included "src/ai" ["src/ai"] = true ∧
  included "src/ai-something" ["src/ai"] = true ∧
  collect_paths glob_match (Return ex_prefix_tree) "/repo" ["src/ai"] LOGIC_PATTERNS
  = Return ["/repo/src/ai/flow.ts"; "/repo/src/ai-something/other.ts"].
Proof.
  assert (∀ rel dirs_include,
     included rel dirs_include = true ↔
     ∃ d, d ∈ dirs_include ∧ ∃ rest, rel = d +:+ rest) as H.
  { intros rel dirs. rewrite included_spec.
    split; intros (d & Hd & H); exists d; (split; [done|]); by apply startswith_spec. }
  split_and!; try done.
  intros rel d. rewrite H. split.
  - by intros (d' & ->%list_elem_of_singleton & Hr).
  - intros Hr. exists d. split; [apply list_elem_of_singleton|]; done.
Qed.

(** C7. With an empty list of prefixes, and with an empty list of patterns,
    the result is the empty list, whatever the tree. *)
Theorem collect_paths_empty_lists
    (fnmatchcase : string → string → bool) (fs : outcome (list entry))
    (base_dir : string) (dirs_include patterns : list string) :
  collect_paths fnmatchcase fs base_dir [] patterns = Return [] ∧
  collect_paths fnmatchcase fs base_dir dirs_include [] = Return [].
Proof.
  rewrite !collect_paths_blocks. split; f_equal.
  - induction (visits _ _ _) as [|v vs IH]; [done|]. simpl. by rewrite IH.
  - induction (visits _ _ _) as [|v vs IH]; [done|]. simpl. rewrite IH.
    unfold block. simpl. by destruct (included _ _).
Qed.

(** C9. The relative path of the root is [.], which starts with none of
    the prefixes of [LOGIC_DIRS] and [STYLE_DIRS]: with prefixes taken from
    these lists, a file that lies in the root directory itself is not
    collected, whatever its name and whatever the patterns. *)
Theorem root_files_not_collected
    (fnmatchcase : string → string → bool) (es : list entry)
    (base_dir : string) (dirs_include patterns : list string) (f : string) :
  wf_tree es = true →
  dirs_include ⊆ LOGIC_DIRS ++ STYLE_DIRS →
  f ∈ file_names es →
  included (Path.relpath []) dirs_include = false ∧
  ∃ l, collect_paths fnmatchcase (Return es) base_dir dirs_include patterns = Return l ∧
       Path.join base_dir f ∉ l.
Proof.
  intros Hwf Hsub Hf.
  assert (included (Path.relpath []) dirs_include = false) as Hroot.
  { destruct (included _ _) eqn:E; [|done].
    apply included_spec in E as (d & Hd%Hsub & E).
    unfold LOGIC_DIRS, STYLE_DIRS in Hd. simpl in Hd.
    repeat (apply elem_of_cons in Hd as [->|Hd]; [done|]).
    by apply elem_of_nil in Hd. }
  split; [done|]. eexists. split; [apply collect_paths_blocks|].
  intros (rel & f' & pat & Hat & _ & Hinc & _ & _ & _ & E)%elem_of_collected.
  change (Path.join base_dir f) with (Path.join (path_of base_dir []) f) in E.
  rewrite !join_path_of in E. symmetry in E.
  apply path_of_inj in E; [|by destruct rel|done|by apply (wf_file_at es)|].
  - apply (app_inj_tail rel []) in E as [-> ->]. by rewrite Hroot in Hinc.
  - constructor; [|done]. by apply (wf_tree_file es).
Qed.

Lemma root_files_not_collected_witness :
  included (Path.relpath []) LOGIC_DIRS = false ∧
  ∃ l, collect_paths glob_match (Return [File "index.ts" ""]) "/repo"
         LOGIC_DIRS LOGIC_PATTERNS = Return l ∧
       Path.join "/repo" "index.ts" ∉ l.
Proof.
  apply (root_files_not_collected glob_match [File "index.ts" ""]).
  - reflexivity.
  - intros d Hd. apply elem_of_app. by left.
  - apply list_elem_of_singleton. reflexivity.
Defined.

(** C10. The name of [base_dir] itself is never tested against
    [IGNORE_DIRS]: when the last component of [base_dir] is an ignored
    name, one that the walk would not keep among sub-directories, the walk
    starts with the visit of [base_dir] all the same, and every file below
    that meets the conditions on its own directories and name is
    collected. *)
Theorem ignored_base_dir_is_scanned
    (fnmatchcase : string → string → bool) (es : list entry)
    (base_dir : string) (dirs_include patterns : list string)
    (rel : list string) (f pattern : string) :
  Path.basename base_dir ∈ IGNORE_DIRS →
  file_at es rel f →
  Forall (fun d => d ∉ IGNORE_DIRS) rel →
  included (Path.relpath rel) dirs_include = true →
  pattern ∈ patterns → fnmatchcase f pattern = true → f ∉ IGNORE_FILES →
  not_ignored_dir (Path.basename base_dir) = false ∧
  (∃ rest, os_walk None not_ignored_dir base_dir (Return es)
           = Return (Visit base_dir [] (List.filter not_ignored_dir (dir_names es))
                       (file_names es) :: rest)) ∧
  ∃ l, collect_paths fnmatchcase (Return es) base_dir dirs_include patterns = Return l ∧
       Path.join (path_of base_dir rel) f ∈ l.
Proof.
  intros Hbase Hat Hkeep Hinc Hpat Hm Hi. split_and!.
  - apply bool_decide_eq_false. by intros [].
  - rewrite os_walk_None. by eexists.
  - eexists. split; [apply collect_paths_blocks|].
    apply elem_of_collected. by exists rel, f, pattern.
Qed.

Lemma ignored_base_dir_is_scanned_witness :
  not_ignored_dir (Path.basename "/home/dev/node_modules") = false ∧
  (∃ rest, os_walk None not_ignored_dir "/home/dev/node_modules" (Return ex_tree)
           = Return (Visit "/home/dev/node_modules" []
                       (List.filter not_ignored_dir (dir_names ex_tree))
                       (file_names ex_tree) :: rest)) ∧
  ∃ l, collect_paths glob_match (Return ex_tree) "/home/dev/node_modules"
         LOGIC_DIRS LOGIC_PATTERNS = Return l ∧
       "/home/dev/node_modules/src/lib/a.ts" ∈ l.
Proof.
  apply (ignored_base_dir_is_scanned glob_match ex_tree "/home/dev/node_modules"
           LOGIC_DIRS LOGIC_PATTERNS ["src"; "lib"] "a.ts" "*.ts").
  - by apply (bool_decide_unpack _).
  - eexists. split.
    + eapply dir_at_below; [|eapply dir_at_below; [|apply dir_at_here]].
      * do 2 apply list_elem_of_further. apply list_elem_of_here.
      * apply list_elem_of_here.
    + apply list_elem_of_here.
  - repeat constructor; by apply (bool_decide_unpack _).
  - reflexivity.
  - apply list_elem_of_here.
  - reflexivity.
  - by apply (bool_decide_unpack _).
Defined.

Lemma collect_paths_ignores_errors
    (fnmatchcase : string → string → bool) (fs : outcome (list entry))
    (base_dir : string) (dirs_include patterns : list string) :
  ∃ l, collect_paths fnmatchcase fs base_dir dirs_include patterns = Return l.
Proof. eexists. apply collect_paths_blocks. Qed.

(** Directories that cannot be listed add nothing to the result. *)
Section unlisted.

Variable fnmatchcase : string → string → bool.
Variables (dirs_include patterns : list string).

Local Abbreviation blocks := (flat_map (block fnmatchcase dirs_include patterns)).
Local Abbreviation below := (descend not_ignored_dir (visits_entry not_ignored_dir)).

Lemma file_names_listable es : file_names (flat_map listable es) = file_names es.
Proof.
  unfold file_names. induction es as [|e es IH]; [done|]. cbn [flat_map].
  rewrite List.filter_app, fmap_app, IH.
  by destruct e as [name data|name [sub|err]].
Qed.

Lemma blocks_listable_list es top rel :
  Forall (fun e => ∀ top rel, blocks (flat_map (below top rel) (listable e))
                              = blocks (below top rel e)) es →
  blocks (flat_map (below top rel) (flat_map listable es))
  = blocks (flat_map (below top rel) es).
Proof.
  induction 1 as [|e es He _ IH]; [done|]. cbn [flat_map].
  by rewrite !flat_map_app, He, IH.
Qed.

Lemma blocks_listable_dir es top rel :
  Forall (fun e => ∀ top rel, blocks (flat_map (below top rel) (listable e))
                              = blocks (below top rel e)) es →
  blocks (visits_dir not_ignored_dir (visits_entry not_ignored_dir) top rel
            (Return (flat_map listable es)))
  = blocks (visits_dir not_ignored_dir (visits_entry not_ignored_dir) top rel
              (Return es)).
Proof.
  intros IH. cbn [visits_dir flat_map]. rewrite (blocks_listable_list _ _ _ IH).
  f_equal. unfold block. cbn [v_rel v_root v_files]. by rewrite file_names_listable.
Qed.

Lemma blocks_listable_entry e top rel :
  blocks (flat_map (below top rel) (listable e)) = blocks (below top rel e).
Proof.
  revert top rel. induction e as [name data|name err|name es IH] using entry_ind;
    intros top rel; cbn [listable flat_map]; rewrite ?app_nil_r; [done| |].
  - unfold descend. by destruct (not_ignored_dir name).
  - unfold descend. destruct (not_ignored_dir name); [|done].
    cbn [visits_entry]. by apply blocks_listable_dir.
Qed.

Lemma collect_paths_listable es base_dir :
  collect_paths fnmatchcase (Return es) base_dir dirs_include patterns
  = collect_paths fnmatchcase (Return (flat_map listable es)) base_dir
      dirs_include patterns.
Proof.
  rewrite !collect_paths_blocks. f_equal. symmetry. apply blocks_listable_dir.
  apply Forall_forall. intros e _. apply blocks_listable_entry.
Qed.

End unlisted.

(** C2, as the code has it. [os.walk] is called without [onerror], so
    an [OSError] of [os.scandir] never leaves it: [collect_paths] always
    returns a list; a root that is missing or cannot be listed gives the
    empty list; and a sub-directory that cannot be listed is passed over,
    at the root and at every depth, the result being that of the tree
    without it. *)
Theorem collect_paths_ignores_scan_errors
    (fnmatchcase : string → string → bool)
    (base_dir : string) (dirs_include patterns : list string) :
  (∀ fs, ∃ l, collect_paths fnmatchcase fs base_dir dirs_include patterns = Return l) ∧
  (∀ err, collect_paths fnmatchcase (Raise err) base_dir dirs_include patterns = Return []) ∧
  (∀ es1 es2 name err,
     collect_paths fnmatchcase (Return (es1 ++ Dir name (Raise err) :: es2))
       base_dir dirs_include patterns
     = collect_paths fnmatchcase (Return (es1 ++ es2)) base_dir dirs_include patterns) ∧
  (∀ es,
     collect_paths fnmatchcase (Return es) base_dir dirs_include patterns
     = collect_paths fnmatchcase (Return (flat_map listable es)) base_dir
         dirs_include patterns).
Proof.
  split_and!.
  - intros fs. eexists. apply collect_paths_blocks.
  - intros err. by rewrite collect_paths_blocks.
  - intros es1 es2 name err. rewrite !collect_paths_blocks. f_equal.
    unfold visits, visits_dir. cbn [flat_map]. f_equal.
    + unfold block. cbn [v_rel v_root v_files]. unfold file_names.
      by rewrite !List.filter_app.
    + rewrite !flat_map_app. do 2 f_equal. cbn [flat_map descend visits_entry visits_dir].
      by destruct (not_ignored_dir name).
  - intros es. apply collect_paths_listable.
Qed.

(** C2 as stated fails: on a missing root the call returns the empty list,
    and with a sub-directory that cannot be listed it returns the paths of
    the other directories; in neither case is an error raised. *)
Lemma collect_paths_raises_no_error :
  collect_paths glob_match (Raise FileNotFoundError) "/missing"
    LOGIC_DIRS LOGIC_PATTERNS = Return [] ∧
  collect_paths glob_match (Return ex_denied_tree) "/repo"
    LOGIC_DIRS LOGIC_PATTERNS = Return ["/repo/src/lib/util.ts"] ∧
  ¬ (∃ err, collect_paths glob_match (Raise FileNotFoundError) "/missing"
              LOGIC_DIRS LOGIC_PATTERNS = Raise err) ∧
  ¬ (∃ err, collect_paths glob_match (Return ex_denied_tree) "/repo"
              LOGIC_DIRS LOGIC_PATTERNS = Raise err).
Proof. split_and!; [done|done|by intros [? ?]|by intros [? ?]]. Qed.

(** C5, as the code has it. The result is made of one block per visited
    directory, in the order in which [os.walk] yields the directories; the
    block of an included directory is made of one group per pattern, in
    the order of the patterns, and each group lists the selected files in
    the order the walk lists the files of the directory. *)
Theorem collect_paths_order
    (fnmatchcase : string → string → bool) (fs : outcome (list entry))
    (base_dir : string) (dirs_include patterns : list string) :
  ∃ vs,
    os_walk None not_ignored_dir base_dir fs = Return vs ∧
    collect_paths fnmatchcase fs base_dir dirs_include patterns
    = Return (flat_map (fun v =>
                if included (Path.relpath (v_rel v)) dirs_include then
                  flat_map (fun pattern =>
                    Path.join (v_root v) <$> selected fnmatchcase (v_files v) pattern)
                    patterns
                else []) vs) ∧
    ∀ v pattern, sublist (selected fnmatchcase (v_files v) pattern) (v_files v).
Proof.
  eexists. split_and!.
  - apply os_walk_None.
  - apply collect_paths_blocks.
  - intros v pat. unfold selected, fnmatch_filter.
    etrans; apply sublist_List_filter.
Qed.

(** C5 as stated fails: in [src/lib] the walk lists [a.py] before [b.ts],
    yet the result has [b.ts] first, because the patterns are the outer
    loop and [*.ts] comes before [*.py]. *)
Lemma collect_paths_not_in_listing_order :
  os_walk None not_ignored_dir "/repo" (Return ex_order_tree)
  = Return [ Visit "/repo" [] ["src"] [];
             Visit "/repo/src" ["src"] ["lib"] [];
             Visit "/repo/src/lib" ["src"; "lib"] [] ["a.py"; "b.ts"] ] ∧
  collect_paths glob_match (Return ex_order_tree) "/repo" LOGIC_DIRS LOGIC_PATTERNS
  = Return ["/repo/src/lib/b.ts"; "/repo/src/lib/a.py"] ∧
  listing_order glob_match LOGIC_DIRS LOGIC_PATTERNS
    [ Visit "/repo" [] ["src"] [];
      Visit "/repo/src" ["src"] ["lib"] [];
      Visit "/repo/src/lib" ["src"; "lib"] [] ["a.py"; "b.ts"] ]
  = ["/repo/src/lib/a.py"; "/repo/src/lib/b.ts"] ∧
  collect_paths glob_match (Return ex_order_tree) "/repo" LOGIC_DIRS LOGIC_PATTERNS
  ≠ Return (listing_order glob_match LOGIC_DIRS LOGIC_PATTERNS
              [ Visit "/repo" [] ["src"] [];
                Visit "/repo/src" ["src"] ["lib"] [];
                Visit "/repo/src/lib" ["src"; "lib"] [] ["a.py"; "b.ts"] ]).
Proof. split_and!; done. Qed.

(** ** The patterns of the script *)

Lemma glob_literal pat name : literal pat = true → glob pat name = String.eqb name pat.
Proof.
  revert name. induction pat as [|c pat IH]; intros name H; [done|].
  simpl in H. apply andb_true_iff in H as [[Hs Hq]%andb_true_iff Hl].
  apply negb_true_iff in Hs, Hq. simpl. rewrite Hs, Hq.
  destruct name as [|a name]; [done|]. simpl. by rewrite (IH _ Hl).
Qed.

Lemma glob_star pat name :
  glob (String "*" pat) name
  = glob pat name ||
    match name with
    | EmptyString => false
    | String _ name' => glob (String "*" pat) name'
    end.
Proof. by destruct name. Qed.

(** A star followed by plain characters selects the names that end with
    these characters. *)
Lemma glob_star_literal pat name :
  literal pat = true → glob (String "*" pat) name = Path.endswith name pat.
Proof.
  intros H. induction name as [|a name IH].
  - rewrite glob_star. cbn [Path.endswith]. by rewrite (glob_literal _ _ H).
  - rewrite glob_star. cbn [Path.endswith]. by rewrite (glob_literal _ _ H), IH.
Qed.

Lemma endswith_refl s : Path.endswith s s = true.
Proof. destruct s; simpl; [done|]. by rewrite Ascii.eqb_refl, String.eqb_refl. Qed.

Lemma endswith_cases c s t :
  Path.endswith (String c s) t = true → String c s = t ∨ Path.endswith s t = true.
Proof.
  cbn [Path.endswith]. intros [H|H]%orb_true_iff; [left|by right].
  by apply String.eqb_eq.
Qed.

(** Two endings of one string: one of them ends with the other. *)
Lemma endswith_comparable s t1 t2 :
  Path.endswith s t1 = true → Path.endswith s t2 = true →
  Path.endswith t1 t2 = true ∨ Path.endswith t2 t1 = true.
Proof.
  induction s as [|c s IH]; intros H1 H2.
  - destruct t1; [|done]. destruct t2; [|done]. by left.
  - apply endswith_cases in H1 as [<-|H1]; [by left|].
    apply endswith_cases in H2 as [<-|H2]; [right|by apply IH].
    cbn [Path.endswith]. by rewrite H1, orb_true_r.
Qed.

Lemma globs_exclusive s1 s2 f :
  literal s1 = true → literal s2 = true →
  Path.endswith s1 s2 = false → Path.endswith s2 s1 = false →
  glob_match f (String "*" s1) = true → glob_match f (String "*" s2) = true → False.
Proof.
  unfold glob_match. intros L1 L2 E12 E21 H1 H2.
  rewrite glob_star_literal in H1, H2 by done.
  destruct (endswith_comparable _ _ _ H1 H2); congruence.
Qed.

(** A name matches at most one of the patterns of the script. *)
Lemma logic_patterns_exclusive f : match_count glob_match LOGIC_PATTERNS f ≤ 1.
Proof.
  unfold match_count, LOGIC_PATTERNS. cbn [List.filter].
  destruct (glob_match f "*.ts") eqn:E1, (glob_match f "*.tsx") eqn:E2,
    (glob_match f "*.js") eqn:E3, (glob_match f "*.py") eqn:E4;
    cbn [length]; try lia; exfalso;
    match goal with
    | H1 : glob_match f (String "*" ?s1) = true,
      H2 : glob_match f (String "*" ?s2) = true |- _ =>
        exact (globs_exclusive s1 s2 f eq_refl eq_refl eq_refl eq_refl H1 H2)
    end.
Qed.

(** ** No path twice *)

Lemma flat_map_bind {A B : Type} (f : A → list B) (l : list A) :
  flat_map f l = l ≫= f.
Proof. induction l as [|x l IH]; [done|]. simpl. by rewrite IH. Qed.

Lemma NoDup_fmap_List_filter {A B : Type} (f : A → B) (p : A → bool) (l : list A) :
  NoDup (f <$> l) → NoDup (f <$> List.filter p l).
Proof.
  intros H. eapply sublist_NoDup; [exact H|apply fmap_sublist, sublist_List_filter].
Qed.

Lemma NoDup_fmap_eq {A B : Type} (f : A → B) (l : list A) (x y : A) :
  NoDup (f <$> l) → x ∈ l → y ∈ l → f x = f y → x = y.
Proof.
  induction l as [|z l IH]; intros Hnd Hx Hy E; [by apply elem_of_nil in Hx|].
  rewrite fmap_cons in Hnd. apply NoDup_cons in Hnd as [Hz Hnd].
  apply elem_of_cons in Hx as [->|Hx]; apply elem_of_cons in Hy as [->|Hy].
  - done.
  - destruct Hz. rewrite E. by apply list_elem_of_fmap_2.
  - destruct Hz. rewrite <- E. by apply list_elem_of_fmap_2.
  - by apply IH.
Qed.

Lemma wf_tree_NoDup es : wf_tree es = true → NoDup (entry_name <$> es).
Proof.
  unfold wf_tree. intros [_ H]%andb_true_iff. by apply bool_decide_eq_true in H.
Qed.

Lemma wf_tree_NoDup_files es : wf_tree es = true → NoDup (file_names es).
Proof. intros H. by apply NoDup_fmap_List_filter, wf_tree_NoDup. Qed.

Lemma dir_at_functional es rel es1 es2 :
  wf_tree es = true → dir_at es rel es1 → dir_at es rel es2 → es1 = es2.
Proof.
  intros Hwf H1. revert es2. induction H1 as [es|es name sub rel es1 Hin _ IH];
    intros es2 H2; inversion H2 as [|? ? sub' ? ? Hin' H2']; subst; [done|].
  assert (Dir name (Return sub) = Dir name (Return sub')) as E.
  { eapply NoDup_fmap_eq; [by apply wf_tree_NoDup|done..]. }
  injection E as <-. apply IH; [|done]. by apply (wf_tree_sub es name).
Qed.

Lemma join_inj a f1 f2 :
  valid_name f1 = true → valid_name f2 = true →
  Path.join a f1 = Path.join a f2 → f1 = f2.
Proof.
  intros H1 H2. rewrite !join_valid by done. apply String.app_inj.
Qed.

Section no_duplicates.

Variable fnmatchcase : string → string → bool.
Implicit Types (dirs_include patterns : list string) (v : visit).

Lemma match_count_cons pattern patterns f :
  match_count fnmatchcase (pattern :: patterns) f
  = (if fnmatchcase f pattern then 1 else 0) + match_count fnmatchcase patterns f.
Proof. unfold match_count. simpl. by destruct (fnmatchcase f pattern). Qed.

Lemma match_count_pos pattern patterns f :
  pattern ∈ patterns → fnmatchcase f pattern = true →
  0 < match_count fnmatchcase patterns f.
Proof.
  intros Hin Hm. unfold match_count.
  assert (pattern ∈ List.filter (fun pattern => fnmatchcase f pattern) patterns) as H.
  { apply list_elem_of_In, filter_In. by rewrite <- list_elem_of_In. }
  destruct (List.filter _ patterns); [by apply elem_of_nil in H|simpl; lia].
Qed.

Lemma NoDup_groups root files patterns :
  Forall (fun f => valid_name f = true) files → NoDup files →
  Forall (fun f => match_count fnmatchcase patterns f ≤ 1) files →
  NoDup (flat_map (fun pattern => Path.join root <$>
                     selected fnmatchcase files pattern) patterns).
Proof.
  intros Hv Hnd. induction patterns as [|pat pats IH]; intros Hone; simpl.
  { constructor. }
  rewrite Forall_forall in Hv, Hone. apply NoDup_app. split_and!.
  - apply NoDup_fmap_2_strong.
    + intros f1 f2 [Hf1 _]%elem_of_selected [Hf2 _]%elem_of_selected.
      apply join_inj; by apply Hv.
    + unfold selected, fnmatch_filter.
      eapply sublist_NoDup; [exact Hnd|etrans; apply sublist_List_filter].
  - intros p (f1 & -> & Hf1)%list_elem_of_fmap Hp.
    apply list_elem_of_In, in_flat_map in Hp as (other & Hother & Hp).
    apply list_elem_of_In in Hother, Hp.
    apply list_elem_of_fmap in Hp as (f2 & E & Hf2).
    apply elem_of_selected in Hf1 as (Hin1 & Hm1 & _).
    apply elem_of_selected in Hf2 as (Hin2 & Hm2 & _).
    apply join_inj in E; [|by apply Hv..]. subst f2.
    pose proof (Hone f1 Hin1) as Hle. rewrite match_count_cons, Hm1 in Hle.
    pose proof (match_count_pos other pats f1 Hother Hm2). lia.
  - apply IH, Forall_forall. intros f Hf.
    pose proof (Hone f Hf) as Hle. rewrite match_count_cons in Hle. lia.
Qed.

Lemma descend_rel keep top rel0 e v :
  v ∈ descend keep (visits_entry keep) top rel0 e →
  ∃ rest, v_rel v = rel0 ++ entry_name e :: rest.
Proof.
  destruct e as [|name sc]; simpl; [by intros ?%elem_of_nil|].
  destruct (keep name); [|by intros ?%elem_of_nil].
  intros Hv. apply (visits_entry_ok keep (Dir name sc)) in Hv.
  destruct sc as [es|]; [|done]. destruct Hv as (rel & es' & _ & _ & ->).
  exists rel. simpl. by rewrite <- app_assoc.
Qed.

Lemma NoDup_visits_dir keep es top rel0 :
  Forall (fun e => ∀ top rel0, wf_entry e = true →
                   NoDup (visits_entry keep top rel0 e)) es →
  wf_tree es = true →
  NoDup (visits_dir keep (visits_entry keep) top rel0 (Return es)).
Proof.
  intros IH Hwf. simpl. apply NoDup_cons. split.
  - intros Hin. apply list_elem_of_In, in_flat_map in Hin as (e & _ & Hv).
    apply list_elem_of_In, descend_rel in Hv as [rest Hv]. simpl in Hv.
    apply (f_equal length) in Hv. rewrite length_app in Hv. simpl in Hv. lia.
  - rewrite flat_map_bind. apply NoDup_bind.
    + intros e1 e2 v He1 He2 [r1 E1]%descend_rel [r2 E2]%descend_rel.
      rewrite E1 in E2. apply app_inv_head in E2. injection E2 as E2 _.
      eapply NoDup_fmap_eq; [by apply wf_tree_NoDup|done..].
    + intros e He. destruct e as [|name sc]; simpl; [constructor|].
      destruct (keep name); [|constructor].
      rewrite Forall_forall in IH. apply (IH _ He).
      by apply (wf_tree_entry es).
    + eapply NoDup_fmap_1, wf_tree_NoDup, Hwf.
Qed.

Lemma NoDup_visits_entry keep e top rel0 :
  wf_entry e = true → NoDup (visits_entry keep top rel0 e).
Proof.
  revert top rel0. induction e as [name data|name err|name es IH] using entry_ind;
    intros top rel0 Hwf; [constructor|constructor|].
  change (visits_entry keep top rel0 (Dir name (Return es)))
    with (visits_dir keep (visits_entry keep) (Path.join top name)
            (rel0 ++ [name]) (Return es)).
  apply NoDup_visits_dir; [done|].
  simpl in Hwf. by apply andb_true_iff in Hwf as [_ Hwf].
Qed.

Lemma NoDup_visits keep es top :
  wf_tree es = true → NoDup (visits keep top (Return es)).
Proof.
  apply NoDup_visits_dir, Forall_forall. intros e _ top' rel0.
  apply NoDup_visits_entry.
Qed.

Lemma NoDup_collected es base_dir dirs_include patterns :
  wf_tree es = true →
  (∀ rel f, file_at es rel f → match_count fnmatchcase patterns f ≤ 1) →
  NoDup (flat_map (block fnmatchcase dirs_include patterns)
           (visits not_ignored_dir base_dir (Return es))).
Proof.
  intros Hwf Hone. rewrite flat_map_bind. apply NoDup_bind.
  - intros v1 v2 p (rel1 & es1 & Hat1 & _ & ->)%elem_of_visits
      (rel2 & es2 & Hat2 & _ & ->)%elem_of_visits
      (_ & _ & f1 & _ & Hf1 & _ & _ & ->)%elem_of_block
      (_ & _ & f2 & _ & Hf2 & _ & _ & E)%elem_of_block.
    simpl in *. rewrite !join_path_of in E.
    apply path_of_inj in E;
      [|by destruct rel1|by destruct rel2|apply (wf_file_at es); [done|by exists es1]
       |apply (wf_file_at es); [done|by exists es2]].
    apply app_inj_tail in E as [-> _].
    by rewrite (dir_at_functional _ _ _ _ Hwf Hat1 Hat2).
  - intros v (rel & es' & Hat & _ & ->)%elem_of_visits.
    unfold block. simpl. destruct (included _ _); [|constructor].
    destruct (wf_tree_dir_at _ _ _ Hwf Hat) as [_ Hwf'].
    apply NoDup_groups; [|by apply wf_tree_NoDup_files|].
    + apply Forall_forall. intros f Hf. by apply (wf_tree_file es').
    + apply Forall_forall. intros f Hf. apply (Hone rel). by exists es'.
  - by apply NoDup_visits.
Qed.

End no_duplicates.

(** *** How often a path occurs *)

Section multiplicity.

Variable fnmatchcase : string → string → bool.
Implicit Types (dirs_include patterns files : list string) (p f : string).

Lemma occurrences_app p (l1 l2 : list string) :
  occurrences p (l1 ++ l2) = occurrences p l1 + occurrences p l2.
Proof. apply count_occ_app. Qed.

Lemma occurrences_absent p (l : list string) : p ∉ l → occurrences p l = 0.
Proof. rewrite list_elem_of_In. apply count_occ_not_In. Qed.

Lemma occurrences_flat_map_absent {A : Type} (g : A → list string) p (vs : list A) :
  (∀ v, v ∈ vs → p ∉ g v) → occurrences p (flat_map g vs) = 0.
Proof.
  intros H. apply occurrences_absent.
  rewrite list_elem_of_In, in_flat_map. intros (v & Hv & Hp).
  apply list_elem_of_In in Hv, Hp. by apply (H v).
Qed.

(** When one element only of a duplicate-free list can give [p], the
    occurrences of [p] are those it gives. *)
Lemma occurrences_flat_map_unique {A : Type} (g : A → list string) p
    (vs : list A) (v0 : A) :
  NoDup vs → v0 ∈ vs → (∀ v, v ∈ vs → p ∈ g v → v = v0) →
  occurrences p (flat_map g vs) = occurrences p (g v0).
Proof.
  induction 1 as [|v vs Hv Hnd IH]; intros Hin Huniq; [by apply elem_of_nil in Hin|].
  cbn [flat_map]. rewrite occurrences_app.
  apply elem_of_cons in Hin as [<-|Hin].
  - rewrite occurrences_flat_map_absent; [lia|].
    intros v Hv' Hp. apply Hv. rewrite <- (Huniq v); [done| |done].
    by apply list_elem_of_further.
  - rewrite IH; [|done|].
    + rewrite (occurrences_absent p (g v)); [done|].
      intros Hp. apply Hv. rewrite (Huniq v); [done| |done]. apply list_elem_of_here.
    + intros v' Hv' Hp. apply Huniq; [|done]. by apply list_elem_of_further.
Qed.

Lemma occurrences_group root files pattern f :
  Forall (fun f => valid_name f = true) files → NoDup files →
  valid_name f = true →
  occurrences (Path.join root f) (Path.join root <$> selected fnmatchcase files pattern)
  = if bool_decide (f ∈ files) && fnmatchcase f pattern
       && bool_decide (f ∉ IGNORE_FILES)
    then 1 else 0.
Proof.
  intros Hv Hnd Hf. rewrite Forall_forall in Hv.
  destruct (decide (f ∈ selected fnmatchcase files pattern)) as [Hsel|Hsel].
  - pose proof Hsel as (Hin & Hm & Hi)%elem_of_selected.
    rewrite (bool_decide_eq_true_2 _ Hin), Hm, (bool_decide_eq_true_2 _ Hi).
    apply NoDup_count_occ'.
    + apply NoDup_ListNoDup, NoDup_fmap_2_strong.
      * intros f1 f2 [Hf1 _]%elem_of_selected [Hf2 _]%elem_of_selected.
        apply join_inj; by apply Hv.
      * unfold selected, fnmatch_filter.
        eapply sublist_NoDup; [exact Hnd|etrans; apply sublist_List_filter].
    + apply list_elem_of_In. by apply list_elem_of_fmap_2.
  - rewrite occurrences_absent.
    + destruct (bool_decide (f ∈ files)) eqn:E1; [|done].
      destruct (fnmatchcase f pattern) eqn:E2; [|done].
      destruct (bool_decide (f ∉ IGNORE_FILES)) eqn:E3; [|done].
      destruct Hsel. apply elem_of_selected.
      by apply bool_decide_eq_true in E1, E3.
    + intros (f' & E & Hf')%list_elem_of_fmap.
      pose proof Hf' as [Hin _]%elem_of_selected.
      apply join_inj in E; [|done|by apply Hv]. by subst f'.
Qed.

Lemma occurrences_groups root files patterns f :
  Forall (fun f => valid_name f = true) files → NoDup files →
  valid_name f = true → f ∈ files →
  occurrences (Path.join root f)
    (flat_map (fun pattern => Path.join root <$> selected fnmatchcase files pattern)
       patterns)
  = if bool_decide (f ∉ IGNORE_FILES) then match_count fnmatchcase patterns f else 0.
Proof.
  intros Hv Hnd Hf Hin. induction patterns as [|pat pats IH].
  - simpl. by destruct (bool_decide _).
  - cbn [flat_map]. rewrite occurrences_app, IH, match_count_cons.
    rewrite (occurrences_group _ _ _ _ Hv Hnd Hf), (bool_decide_eq_true_2 _ Hin).
    by destruct (fnmatchcase f pat), (bool_decide (f ∉ IGNORE_FILES)).
Qed.

Lemma occurrences_collected es base_dir dirs_include patterns rel f :
  wf_tree es = true → file_at es rel f →
  occurrences (Path.join (path_of base_dir rel) f)
    (flat_map (block fnmatchcase dirs_include patterns)
       (visits not_ignored_dir base_dir (Return es)))
  = if forallb not_ignored_dir rel && included (Path.relpath rel) dirs_include
       && bool_decide (f ∉ IGNORE_FILES)
    then match_count fnmatchcase patterns f else 0.
Proof.
  intros Hwf (es' & Hat & Hf).
  destruct (wf_tree_dir_at _ _ _ Hwf Hat) as [Hrel Hwf'].
  assert (∀ v, v ∈ visits not_ignored_dir base_dir (Return es) →
               Path.join (path_of base_dir rel) f
                 ∈ block fnmatchcase dirs_include patterns v →
               v = visit_of not_ignored_dir base_dir [] rel es') as Huniq.
  { intros v (rel1 & es1 & Hat1 & _ & ->)%elem_of_visits
      (_ & _ & f1 & _ & Hf1 & _ & _ & E)%elem_of_block.
    simpl in *. rewrite !join_path_of in E.
    apply path_of_inj in E;
      [|by destruct rel|by destruct rel1|apply (wf_file_at es); [done|by exists es']
       |apply (wf_file_at es); [done|by exists es1]].
    apply app_inj_tail in E as [<- _].
    by rewrite (dir_at_functional _ _ _ _ Hwf Hat Hat1). }
  destruct (forallb not_ignored_dir rel) eqn:Hkeep; cbn [andb].
  - rewrite (occurrences_flat_map_unique _ _ _
               (visit_of not_ignored_dir base_dir [] rel es')).
    + unfold block. cbn [visit_of v_rel v_root v_files app].
      destruct (included _ _); cbn [andb]; [|done].
      apply occurrences_groups; [|by apply wf_tree_NoDup_files
                                 |by apply (wf_tree_file es')|done].
      apply Forall_forall. intros f' Hf'. by apply (wf_tree_file es').
    + by apply NoDup_visits.
    + apply elem_of_visits. exists rel, es'. split_and!; [done| |done].
      apply Forall_forall. intros d Hd. rewrite forallb_forall in Hkeep.
      by apply Hkeep, list_elem_of_In.
    + done.
  - apply occurrences_flat_map_absent. intros v Hv Hp.
    rewrite (Huniq v Hv Hp) in Hv.
    apply elem_of_visits in Hv as (rel1 & es1 & _ & Hall & E).
    injection E as _ <- _ _.
    rewrite Forall_forall in Hall. apply not_true_iff_false in Hkeep. apply Hkeep.
    apply forallb_forall. intros d Hd. by apply Hall, list_elem_of_In.
Qed.

End multiplicity.

(** C4, as the code has it. On a well-formed tree, the path of a file
    that is collected occurs in the result once for every entry of the
    list of patterns that the name of the file matches; so that, when no
    file name of the tree matches more than one entry, every path occurs
    at most once. *)
Theorem collect_paths_no_duplicates
    (fnmatchcase : string → string → bool) (es : list entry)
    (base_dir : string) (dirs_include patterns : list string) :
  wf_tree es = true →
  ∃ l, collect_paths fnmatchcase (Return es) base_dir dirs_include patterns = Return l ∧
    (∀ rel f, file_at es rel f →
       occurrences (Path.join (path_of base_dir rel) f) l
       = if forallb not_ignored_dir rel && included (Path.relpath rel) dirs_include
            && bool_decide (f ∉ IGNORE_FILES)
         then match_count fnmatchcase patterns f else 0) ∧
    ((∀ rel f, file_at es rel f → match_count fnmatchcase patterns f ≤ 1) →
     NoDup l).
Proof.
  intros Hwf. eexists. split; [apply collect_paths_blocks|]. split.
  - intros rel f Hat. by apply occurrences_collected.
  - intros Hone. by apply NoDup_collected.
Qed.

Lemma collect_paths_no_duplicates_witness :
  ∃ l, collect_paths glob_match (Return ex_tree) "/repo" (LOGIC_DIRS ++ STYLE_DIRS)
         LOGIC_PATTERNS = Return l ∧
    (∀ rel f, file_at ex_tree rel f →
       occurrences (Path.join (path_of "/repo" rel) f) l
       = if forallb not_ignored_dir rel
            && included (Path.relpath rel) (LOGIC_DIRS ++ STYLE_DIRS)
            && bool_decide (f ∉ IGNORE_FILES)
         then match_count glob_match LOGIC_PATTERNS f else 0) ∧
    ((∀ rel f, file_at ex_tree rel f → match_count glob_match LOGIC_PATTERNS f ≤ 1) →
     NoDup l).
Proof. apply (collect_paths_no_duplicates glob_match ex_tree). reflexivity. Defined.

(** C4 as stated fails: with the overlapping patterns [*.ts] and [*] the
    one file [a.ts] is appended once for each of them. *)
Lemma collect_paths_duplicates :
  match_count glob_match ["*.ts"; "*"] "a.ts" = 2 ∧
  collect_paths glob_match (Return ex_overlap_tree) "/repo" ["src/lib"] ["*.ts"; "*"]
  = Return ["/repo/src/lib/a.ts"; "/repo/src/lib/a.ts"] ∧
  ¬ NoDup ["/repo/src/lib/a.ts"; "/repo/src/lib/a.ts"].
Proof.
  split_and!; [done|done|]. intros [H _]%NoDup_cons. apply H, list_elem_of_here.
Qed.

(** ** The driver: listings *)

Section listings.

Implicit Types (e : entry) (es des : list entry) (name : string).

Lemma find_entry_Some name es e :
  find_entry name es = Some e → entry_name e = name ∧ e ∈ es.
Proof.
  intros [Hin H]%find_some. split; [by apply String.eqb_eq|by apply list_elem_of_In].
Qed.

Lemma find_put_eq e' es : find_entry (entry_name e') (put_entry e' es) = Some e'.
Proof.
  unfold find_entry. induction es as [|e es IH]; simpl.
  - by rewrite String.eqb_refl.
  - destruct (String.eqb (entry_name e) (entry_name e')) eqn:E; simpl.
    + by rewrite String.eqb_refl.
    + by rewrite E.
Qed.

Lemma find_put_ne name e' es :
  entry_name e' ≠ name → find_entry name (put_entry e' es) = find_entry name es.
Proof.
  intros Hne%String.eqb_neq. unfold find_entry. induction es as [|e es IH]; simpl.
  - by rewrite Hne.
  - destruct (String.eqb (entry_name e) (entry_name e')) eqn:E; simpl.
    + apply String.eqb_eq in E. by rewrite E, Hne.
    + by rewrite IH.
Qed.

Lemma put_put e1 e2 es :
  entry_name e1 = entry_name e2 →
  put_entry e2 (put_entry e1 es) = put_entry e2 es.
Proof.
  intros E. induction es as [|e es IH]; simpl.
  - by rewrite E, String.eqb_refl.
  - rewrite <- E. destruct (String.eqb (entry_name e) (entry_name e1)) eqn:E1; simpl.
    + by rewrite E, String.eqb_refl.
    + rewrite <- E, E1. by f_equal.
Qed.

Lemma put_entry_new e' es :
  find_entry (entry_name e') es = None → put_entry e' es = es ++ [e'].
Proof.
  unfold find_entry. induction es as [|e es IH]; simpl; [done|].
  destruct (String.eqb (entry_name e) (entry_name e')); [done|].
  intros H. by rewrite IH.
Qed.

(** Putting a file where no directory of its name lies leaves the
    sub-directories as they are. *)
Lemma filter_is_dir_put_file name data des :
  from_option is_dir false (find_entry name des) = false →
  List.filter is_dir (put_entry (File name data) des) = List.filter is_dir des.
Proof.
  unfold find_entry. induction des as [|e des IH]; simpl; [done|].
  destruct (String.eqb (entry_name e) name); simpl.
  - by intros ->.
  - intros H. by rewrite IH.
Qed.

End listings.

(** ** The driver: steps *)

Lemma io_bind_Return {A B : Type} (f : A → io B) (m : io A) (w w' : world) (a : A) :
  m w = (Return a, w') → (m ≫= f) w = f a w'.
Proof. intros H. unfold mbind, io_bind. by rewrite H. Qed.

Section steps.

Implicit Types (cwd dir name data : string) (es des : list entry)
  (out paths : list string).

Lemma open_w_ok cwd es out dir d des name :
  find_entry dir es = Some (Dir d (Return des)) →
  from_option is_dir false (find_entry name des) = false →
  open_w dir name (World cwd (Return es) out)
  = (Return (dir, name), with_file cwd es dir des name "" out).
Proof.
  intros Hdir Hname. unfold open_w, in_dir. simpl. rewrite Hdir.
  by destruct (find_entry name des) as [[|]|].
Qed.

Lemma write_ok cwd es out dir des name data text :
  write (dir, name) text (with_file cwd es dir des name data out)
  = (Return (), with_file cwd es dir des name (data +:+ text) out).
Proof.
  unfold write, in_dir, with_file. simpl.
  rewrite (find_put_eq (Dir dir _)), (find_put_eq (File name _)).
  unfold set_root. simpl. by rewrite !put_put.
Qed.

Lemma for_write_ok cwd es out dir des name paths data :
  for_ paths (fun path => write (dir, name) (path +:+ linesep))
    (with_file cwd es dir des name data out)
  = (Return (), with_file cwd es dir des name (data +:+ lines paths) out).
Proof.
  revert data. induction paths as [|path paths IH]; intros data; simpl.
  - by rewrite app_empty_r.
  - rewrite (io_bind_Return _ _ _ _ _ (write_ok _ _ _ _ _ _ _ _)), IH.
    by rewrite !string_app_assoc.
Qed.

(** [with open(..., 'w') as f: for path in paths: f.write(path + os.linesep)] *)
Lemma write_lines_ok cwd es out dir d des name paths :
  find_entry dir es = Some (Dir d (Return des)) →
  from_option is_dir false (find_entry name des) = false →
  (f ← open_w dir name; for_ paths (fun path => write f (path +:+ linesep)))
    (World cwd (Return es) out)
  = (Return (), with_file cwd es dir des name (lines paths) out).
Proof.
  intros Hdir Hname.
  rewrite (io_bind_Return _ _ _ _ _ (open_w_ok _ _ _ _ _ _ _ Hdir Hname)).
  apply for_write_ok.
Qed.

End steps.

(** ** The driver: what the output directory adds to a scan *)

Section trace_is_not_scanned.

Variable fnmatchcase : string → string → bool.
Variables (cwd : string) (dirs_include patterns : list string).
Hypothesis root_excluded : included "." dirs_include = false.
Hypothesis trace_excluded : included "trace" dirs_include = false.

Local Abbreviation blocks := (flat_map (block fnmatchcase dirs_include patterns)).
Local Abbreviation below := (descend not_ignored_dir (visits_entry not_ignored_dir)).

Lemma flat_map_flat_map {A B C : Type} (f : A → list B) (g : B → list C) (l : list A) :
  flat_map g (flat_map f l) = flat_map (fun x => flat_map g (f x)) l.
Proof.
  induction l as [|x l IH]; [done|]. simpl. by rewrite flat_map_app, IH.
Qed.

Lemma collected_root es :
  blocks (visits not_ignored_dir cwd (Return es))
  = flat_map (fun e => blocks (below cwd [] e)) es.
Proof.
  unfold visits, visits_dir. cbn [flat_map].
  unfold block at 1. cbn [v_rel Path.relpath]. unfold Path.curdir.
  rewrite root_excluded. apply flat_map_flat_map.
Qed.

Lemma below_dirs_only top rel des :
  flat_map (below top rel) des = flat_map (below top rel) (List.filter is_dir des).
Proof.
  induction des as [|e des IH]; [done|]. destruct e as [|name sc]; simpl; [done|].
  by rewrite IH.
Qed.

(** What the directory [trace] adds depends on its sub-directories only. *)
Lemma trace_contribution des :
  blocks (below cwd [] (Dir "trace" (Return des)))
  = blocks (flat_map (below (Path.join cwd "trace") ["trace"]) (List.filter is_dir des)).
Proof.
  unfold descend at 1.
  replace (not_ignored_dir "trace") with true by done.
  cbn [visits_entry visits_dir flat_map].
  unfold block at 1. cbn [v_rel app Path.relpath foldl].
  rewrite trace_excluded. by rewrite <- below_dirs_only.
Qed.

Lemma flat_map_put_entry {B : Type} (f : entry → list B) (e' : entry) es :
  (∀ e0, find_entry (entry_name e') es = Some e0 → f e' = f e0) →
  (find_entry (entry_name e') es = None → f e' = []) →
  flat_map f (put_entry e' es) = flat_map f es.
Proof.
  unfold find_entry. induction es as [|e es IH]; simpl; intros Hsome Hnone.
  - by rewrite Hnone.
  - destruct (String.eqb (entry_name e) (entry_name e')); simpl.
    + by rewrite (Hsome e).
    + by rewrite IH.
Qed.

(** Replacing [trace] by a directory with the same sub-directories
    changes nothing in what is collected. *)
Lemma collect_paths_put_trace es d des des' :
  find_entry "trace" es = Some (Dir d (Return des)) →
  List.filter is_dir des' = List.filter is_dir des →
  collect_paths fnmatchcase (Return (put_entry (Dir "trace" (Return des')) es))
    cwd dirs_include patterns
  = collect_paths fnmatchcase (Return es) cwd dirs_include patterns.
Proof.
  intros Hfind Hdirs. rewrite !collect_paths_blocks. f_equal.
  rewrite !collected_root. apply flat_map_put_entry.
  - cbn [entry_name]. rewrite Hfind. intros e0 [= <-].
    destruct (find_entry_Some _ _ _ Hfind) as [Hd _]. simpl in Hd. subst d.
    by rewrite !trace_contribution, Hdirs.
  - cbn [entry_name]. by rewrite Hfind.
Qed.

(** Creating an empty [trace] changes nothing either. *)
Lemma collect_paths_new_trace es :
  find_entry "trace" es = None →
  collect_paths fnmatchcase (Return (es ++ [Dir "trace" (Return [])]))
    cwd dirs_include patterns
  = collect_paths fnmatchcase (Return es) cwd dirs_include patterns.
Proof.
  intros Hfind. rewrite !collect_paths_blocks. f_equal.
  rewrite !collected_root, flat_map_app. cbn [flat_map].
  rewrite trace_contribution. simpl. by rewrite !app_nil_r.
Qed.

End trace_is_not_scanned.

(** ** The driver: a whole run *)

Lemma find_entry_new e' es :
  find_entry (entry_name e') es = None →
  find_entry (entry_name e') (es ++ [e']) = Some e'.
Proof. intros H. rewrite <- (put_entry_new _ _ H). apply find_put_eq. Qed.

Lemma makedirs_ready cwd es out :
  output_ready es = true →
  ∃ es1 d des1,
    makedirs_exist_ok "trace" (World cwd (Return es) out)
    = (Return (), World cwd (Return es1) out) ∧
    find_entry "trace" es1 = Some (Dir d (Return des1)) ∧
    from_option is_dir false (find_entry "logic_files.txt" des1) = false ∧
    from_option is_dir false (find_entry "logic_style_files.txt" des1) = false ∧
    ∀ fnmatchcase dirs_include patterns,
      included "." dirs_include = false → included "trace" dirs_include = false →
      collect_paths fnmatchcase (Return es1) cwd dirs_include patterns
      = collect_paths fnmatchcase (Return es) cwd dirs_include patterns.
Proof.
  unfold output_ready, makedirs_exist_ok. cbn [w_root].
  destruct (find_entry "trace" es) as [[|d [des|]]|] eqn:Hfind; try done.
  - intros [H1 H2]%andb_true_iff. apply negb_true_iff in H1, H2.
    exists es, d, des. by split_and!.
  - intros _. exists (es ++ [Dir "trace" (Return [])]), "trace", [].
    split_and!; try done.
    + by apply (find_entry_new (Dir "trace" (Return []))).
    + intros. by apply collect_paths_new_trace.
Qed.

Lemma main_run (fnmatchcase : string → string → bool) cwd es out :
  output_ready es = true →
  ∃ logic combined w',
    collect_paths fnmatchcase (Return es) cwd LOGIC_DIRS LOGIC_PATTERNS = Return logic ∧
    collect_paths fnmatchcase (Return es) cwd (LOGIC_DIRS ++ STYLE_DIRS) LOGIC_PATTERNS
    = Return combined ∧
    main fnmatchcase (World cwd (Return es) out) = (Return (), w') ∧
    read_file w' "trace" "logic_files.txt" = Some (lines logic) ∧
    read_file w' "trace" "logic_style_files.txt" = Some (lines combined) ∧
    w_stdout w' = out ++
      [ "Logic file list saved to: "
          +:+ Path.join (Path.join cwd "trace") "logic_files.txt";
        "Logic+Style file list saved to: "
          +:+ Path.join (Path.join cwd "trace") "logic_style_files.txt" ].
Proof.
  intros Hready.
  destruct (makedirs_ready cwd es out Hready)
    as (es1 & d & des1 & Hmk & Hfind & Hn1 & Hn2 & Hsame).
  destruct (collect_paths_ignores_errors fnmatchcase (Return es) cwd
              LOGIC_DIRS LOGIC_PATTERNS) as [logic Hlogic].
  destruct (collect_paths_ignores_errors fnmatchcase (Return es) cwd
              (LOGIC_DIRS ++ STYLE_DIRS) LOGIC_PATTERNS) as [combined Hcombined].
  set (des3 := put_entry (File "logic_files.txt" (lines logic)) des1).
  set (es3 := put_entry (Dir "trace" (Return des3)) es1).
  assert (find_entry "trace" es3 = Some (Dir "trace" (Return des3))) as Hfind3.
  { apply (find_put_eq (Dir "trace" (Return des3))). }
  assert (from_option is_dir false (find_entry "logic_style_files.txt" des3) = false)
    as Hn3.
  { unfold des3. by rewrite find_put_ne. }
  exists logic, combined. eexists. split_and!; [done|done| |..].
  - unfold main.
    rewrite (io_bind_Return _ getcwd (World cwd (Return es) out)
               (World cwd (Return es) out) cwd); [|done]. cbv zeta.
    rewrite (io_bind_Return _ _ _ _ _ Hmk).
    rewrite (io_bind_Return _ (collect _ _ _ _) _ (World cwd (Return es1) out) logic).
    2:{ unfold collect. cbn [w_root]. by rewrite Hsame, Hlogic. }
    rewrite (io_bind_Return _ _ _ _ _
               (write_lines_ok _ _ _ _ _ _ _ _ Hfind Hn1)).
    rewrite (io_bind_Return _ (collect _ _ _ _) _
               (with_file cwd es1 "trace" des1 "logic_files.txt" (lines logic) out)
               combined).
    2:{ unfold collect, with_file. cbn [w_root].
        rewrite (collect_paths_put_trace fnmatchcase cwd (LOGIC_DIRS ++ STYLE_DIRS)
                   LOGIC_PATTERNS eq_refl eq_refl _ _ _ _ Hfind).
        - by rewrite Hsame, Hcombined.
        - by apply filter_is_dir_put_file. }
    unfold with_file at 1. fold des3. fold es3.
    rewrite (io_bind_Return _ _ _ _ _
               (write_lines_ok _ _ _ _ _ _ _ _ Hfind3 Hn3)).
    reflexivity.
  - unfold read_file, with_file. cbn [w_root print mbind io_bind].
    rewrite (find_put_eq (Dir "trace" _)).
    rewrite find_put_ne by done. unfold des3.
    by rewrite (find_put_eq (File "logic_files.txt" _)).
  - unfold read_file, with_file. cbn [w_root print mbind io_bind].
    rewrite (find_put_eq (Dir "trace" _)).
    by rewrite (find_put_eq (File "logic_style_files.txt" _)).
  - cbn. by rewrite <- app_assoc.
Qed.

(** ** The claims about [main] *)

Lemma included_app rel dirs1 dirs2 :
  included rel dirs1 = true → included rel (dirs1 ++ dirs2) = true.
Proof. unfold included. rewrite existsb_app. by intros ->. Qed.

Lemma collect_paths_more_dirs
    (fnmatchcase : string → string → bool) (fs : outcome (list entry))
    (base_dir : string) (dirs1 dirs2 patterns : list string) (l1 l2 : list string) :
  collect_paths fnmatchcase fs base_dir dirs1 patterns = Return l1 →
  collect_paths fnmatchcase fs base_dir (dirs1 ++ dirs2) patterns = Return l2 →
  l1 ⊆ l2.
Proof.
  rewrite !collect_paths_blocks. intros [= <-] [= <-] p.
  rewrite !list_elem_of_In, !in_flat_map. intros (v & Hv & Hp). exists v.
  split; [done|]. apply list_elem_of_In. apply list_elem_of_In in Hp.
  apply elem_of_block in Hp as [Hinc Hp]. apply elem_of_block.
  split; [by apply included_app|done].
Qed.

(** C3. [collect_paths] grows with the list of prefixes: every path
    collected for [dirs1] is collected for [dirs1 ++ dirs2]. In a run of
    [main] that can write its output directory, [logic_files.txt] holds the
    lines of the list collected for [LOGIC_DIRS] and
    [logic_style_files.txt] the lines of the list collected for
    [LOGIC_DIRS ++ STYLE_DIRS], and every path of the first list is in the
    second. *)
Theorem logic_list_within_combined (fnmatchcase : string → string → bool) :
  (∀ fs base_dir dirs1 dirs2 patterns,
     ∃ l1 l2,
       collect_paths fnmatchcase fs base_dir dirs1 patterns = Return l1 ∧
       collect_paths fnmatchcase fs base_dir (dirs1 ++ dirs2) patterns = Return l2 ∧
       l1 ⊆ l2) ∧
  (∀ cwd es out,
     output_ready es = true →
     ∃ logic combined w',
       collect_paths fnmatchcase (Return es) cwd LOGIC_DIRS LOGIC_PATTERNS
       = Return logic ∧
       collect_paths fnmatchcase (Return es) cwd (LOGIC_DIRS ++ STYLE_DIRS)
         LOGIC_PATTERNS = Return combined ∧
       main fnmatchcase (World cwd (Return es) out) = (Return (), w') ∧
       read_file w' "trace" "logic_files.txt" = Some (lines logic) ∧
       read_file w' "trace" "logic_style_files.txt" = Some (lines combined) ∧
       logic ⊆ combined).
Proof.
  split.
  - intros fs base_dir dirs1 dirs2 patterns.
    destruct (collect_paths_ignores_errors fnmatchcase fs base_dir dirs1 patterns)
      as [l1 H1].
    destruct (collect_paths_ignores_errors fnmatchcase fs base_dir (dirs1 ++ dirs2)
                patterns) as [l2 H2].
    exists l1, l2. split_and!; [done..|]. by eapply collect_paths_more_dirs.
  - intros cwd es out Hready.
    destruct (main_run fnmatchcase cwd es out Hready)
      as (logic & combined & w' & Hl & Hc & Hmain & Hr1 & Hr2 & _).
    exists logic, combined, w'. split_and!; [done..|].
    by eapply collect_paths_more_dirs.
Qed.

Lemma logic_list_within_combined_witness :
  ∃ logic combined w',
    collect_paths glob_match (Return ex_tree) "/repo" LOGIC_DIRS LOGIC_PATTERNS
    = Return logic ∧
    collect_paths glob_match (Return ex_tree) "/repo" (LOGIC_DIRS ++ STYLE_DIRS)
      LOGIC_PATTERNS = Return combined ∧
    main glob_match (World "/repo" (Return ex_tree) []) = (Return (), w') ∧
    read_file w' "trace" "logic_files.txt" = Some (lines logic) ∧
    read_file w' "trace" "logic_style_files.txt" = Some (lines combined) ∧
    logic ⊆ combined.
Proof.
  apply (proj2 (logic_list_within_combined glob_match) "/repo" ex_tree []).
  reflexivity.
Defined.

(** C8. A run of [main] that can write its output directory ends without
    error; it leaves in [trace/logic_files.txt] the paths collected for
    [LOGIC_DIRS] and in [trace/logic_style_files.txt] the paths collected
    for [LOGIC_DIRS ++ STYLE_DIRS], each path followed by a line end, in
    the order of the list and whatever the two files held before; it
    prints the two confirmation lines. When a list is empty its file is
    empty. *)
Theorem main_writes_lists
    (fnmatchcase : string → string → bool) (cwd : string) (es : list entry)
    (out : list string) :
  output_ready es = true →
  ∃ logic combined w',
    collect_paths fnmatchcase (Return es) cwd LOGIC_DIRS LOGIC_PATTERNS = Return logic ∧
    collect_paths fnmatchcase (Return es) cwd (LOGIC_DIRS ++ STYLE_DIRS) LOGIC_PATTERNS
    = Return combined ∧
    main fnmatchcase (World cwd (Return es) out) = (Return (), w') ∧
    read_file w' "trace" "logic_files.txt" = Some (lines logic) ∧
    read_file w' "trace" "logic_style_files.txt" = Some (lines combined) ∧
    w_stdout w' = out ++
      [ "Logic file list saved to: "
          +:+ Path.join (Path.join cwd "trace") "logic_files.txt";
        "Logic+Style file list saved to: "
          +:+ Path.join (Path.join cwd "trace") "logic_style_files.txt" ] ∧
    (∀ path paths, lines (path :: paths) = path +:+ linesep +:+ lines paths) ∧
    (logic = [] → read_file w' "trace" "logic_files.txt" = Some "") ∧
    (combined = [] → read_file w' "trace" "logic_style_files.txt" = Some "").
Proof.
  intros Hready.
  destruct (main_run fnmatchcase cwd es out Hready)
    as (logic & combined & w' & Hl & Hc & Hmain & Hr1 & Hr2 & Hout).
  exists logic, combined, w'. split_and!; try done.
  - intros E. by rewrite Hr1, E.
  - intros E. by rewrite Hr2, E.
Qed.

Lemma main_writes_lists_witness :
  ∃ logic combined w',
    collect_paths glob_match (Return ex_rerun_tree) "/repo" LOGIC_DIRS LOGIC_PATTERNS
    = Return logic ∧
    collect_paths glob_match (Return ex_rerun_tree) "/repo" (LOGIC_DIRS ++ STYLE_DIRS)
      LOGIC_PATTERNS = Return combined ∧
    main glob_match (World "/repo" (Return ex_rerun_tree) []) = (Return (), w') ∧
    read_file w' "trace" "logic_files.txt" = Some (lines logic) ∧
    read_file w' "trace" "logic_style_files.txt" = Some (lines combined) ∧
    w_stdout w' = [] ++
      [ "Logic file list saved to: "
          +:+ Path.join (Path.join "/repo" "trace") "logic_files.txt";
        "Logic+Style file list saved to: "
          +:+ Path.join (Path.join "/repo" "trace") "logic_style_files.txt" ] ∧
    (∀ path paths, lines (path :: paths) = path +:+ linesep +:+ lines paths) ∧
    (logic = [] → read_file w' "trace" "logic_files.txt" = Some "") ∧
    (combined = [] → read_file w' "trace" "logic_style_files.txt" = Some "").
Proof. apply (main_writes_lists glob_match "/repo" ex_rerun_tree []). reflexivity. Defined.

(** * Further properties *)

(** ** How the result depends on the list of prefixes *)

Lemma sublist_flat_map {A B : Type} (f g : A → list B) (l : list A) :
  (∀ x, sublist (f x) (g x)) → sublist (flat_map f l) (flat_map g l).
Proof.
  intros H. induction l as [|x l IH]; simpl; [done|]. by apply sublist_app.
Qed.

Lemma included_subseteq rel dirs1 dirs2 :
  dirs1 ⊆ dirs2 → included rel dirs1 = true → included rel dirs2 = true.
Proof.
  intros Hsub (d & Hd & H)%included_spec. apply included_spec.
  exists d. split; [by apply Hsub|done].
Qed.

Lemma included_same_elements rel dirs1 dirs2 :
  (∀ d, d ∈ dirs1 ↔ d ∈ dirs2) → included rel dirs1 = included rel dirs2.
Proof.
  intros H. destruct (included rel dirs1) eqn:E1, (included rel dirs2) eqn:E2;
    try done.
  - rewrite (included_subseteq rel dirs1 dirs2) in E2; [done| |done].
    intros d. apply H.
  - rewrite (included_subseteq rel dirs2 dirs1) in E1; [done| |done].
    intros d. apply H.
Qed.

(** X1. The list collected for some prefixes is a subsequence of the list
    collected for more prefixes: the same paths, in the same order, with
    other paths in between. *)
Theorem collect_paths_subsequence
    (fnmatchcase : string → string → bool) (fs : outcome (list entry))
    (base_dir : string) (dirs1 dirs2 patterns : list string) :
  dirs1 ⊆ dirs2 →
  ∃ l1 l2,
    collect_paths fnmatchcase fs base_dir dirs1 patterns = Return l1 ∧
    collect_paths fnmatchcase fs base_dir dirs2 patterns = Return l2 ∧
    sublist l1 l2.
Proof.
  intros Hsub. eexists _, _. split_and!; [apply collect_paths_blocks..|].
  apply sublist_flat_map. intros v. unfold block.
  destruct (included _ dirs1) eqn:E; [|apply sublist_nil_l].
  by rewrite (included_subseteq _ _ _ Hsub E).
Qed.

Lemma collect_paths_subsequence_witness :
  ∃ l1 l2,
    collect_paths glob_match (Return ex_tree) "/repo" LOGIC_DIRS LOGIC_PATTERNS
    = Return l1 ∧
    collect_paths glob_match (Return ex_tree) "/repo" (LOGIC_DIRS ++ STYLE_DIRS)
      LOGIC_PATTERNS = Return l2 ∧
    sublist l1 l2.
Proof.
  apply (collect_paths_subsequence glob_match (Return ex_tree) "/repo"
           LOGIC_DIRS (LOGIC_DIRS ++ STYLE_DIRS) LOGIC_PATTERNS).
  intros d Hd. apply elem_of_app. by left.
Defined.

(** X2. The paths collected for two lists of prefixes put together are
    the paths collected for the one or for the other. *)
Theorem collect_paths_dirs_union
    (fnmatchcase : string → string → bool) (fs : outcome (list entry))
    (base_dir : string) (dirs1 dirs2 patterns : list string) :
  ∃ l1 l2 l,
    collect_paths fnmatchcase fs base_dir dirs1 patterns = Return l1 ∧
    collect_paths fnmatchcase fs base_dir dirs2 patterns = Return l2 ∧
    collect_paths fnmatchcase fs base_dir (dirs1 ++ dirs2) patterns = Return l ∧
    ∀ p, p ∈ l ↔ p ∈ l1 ∨ p ∈ l2.
Proof.
  eexists _, _, _. split_and!; [apply collect_paths_blocks..|].
  intros p. rewrite !list_elem_of_In, !in_flat_map. split.
  - intros (v & Hv & Hp). apply list_elem_of_In, elem_of_block in Hp as [Hinc Hp].
    unfold included in Hinc. rewrite existsb_app in Hinc.
    apply orb_true_iff in Hinc as [Hinc|Hinc]; [left|right]; exists v;
      (split; [done|]); by apply list_elem_of_In, elem_of_block.
  - intros [(v & Hv & Hp)|(v & Hv & Hp)]; exists v; (split; [done|]);
      apply list_elem_of_In, elem_of_block in Hp as [Hinc Hp];
      apply list_elem_of_In, elem_of_block; (split; [|done]);
      unfold included in *; rewrite existsb_app, Hinc; [done|apply orb_true_r].
Qed.

(** X3. Only the set of prefixes counts: two lists with the same elements,
    in whatever order and however often repeated, give the same result,
    path for path. *)
Theorem collect_paths_dirs_as_set
    (fnmatchcase : string → string → bool) (fs : outcome (list entry))
    (base_dir : string) (dirs1 dirs2 patterns : list string) :
  (∀ d, d ∈ dirs1 ↔ d ∈ dirs2) →
  collect_paths fnmatchcase fs base_dir dirs1 patterns
  = collect_paths fnmatchcase fs base_dir dirs2 patterns.
Proof.
  intros H. rewrite !collect_paths_blocks. f_equal. apply flat_map_ext.
  intros v. unfold block. by rewrite (included_same_elements _ _ _ H).
Qed.

Lemma collect_paths_dirs_as_set_witness :
  collect_paths glob_match (Return ex_tree) "/repo" ["src/lib"; "src/components"]
    LOGIC_PATTERNS
  = collect_paths glob_match (Return ex_tree) "/repo"
      ["src/components"; "src/lib"; "src/components"] LOGIC_PATTERNS.
Proof.
  apply (collect_paths_dirs_as_set glob_match (Return ex_tree) "/repo"
           ["src/lib"; "src/components"] ["src/components"; "src/lib"; "src/components"]).
  intros d. rewrite !elem_of_cons, !elem_of_nil. tauto.
Defined.

(** ** How the result depends on the list of patterns *)

Lemma flat_map_app_Permutation {A B : Type} (f g : A → list B) (l : list A) :
  flat_map (fun x => f x ++ g x) l ≡ₚ flat_map f l ++ flat_map g l.
Proof.
  induction l as [|x l IH]; simpl; [done|]. rewrite IH.
  rewrite <- !app_assoc. f_equiv.
  rewrite !app_assoc. f_equiv. apply Permutation_app_comm.
Qed.

Lemma flat_map_Permutation_pointwise {A B : Type} (f g : A → list B) (l : list A) :
  (∀ x, f x ≡ₚ g x) → flat_map f l ≡ₚ flat_map g l.
Proof.
  intros H. induction l as [|x l IH]; simpl; [done|]. by rewrite (H x), IH.
Qed.

Lemma block_app_patterns fnmatchcase dirs_include patterns1 patterns2 v :
  block fnmatchcase dirs_include (patterns1 ++ patterns2) v
  = block fnmatchcase dirs_include patterns1 v
    ++ block fnmatchcase dirs_include patterns2 v.
Proof. unfold block. destruct (included _ _); [apply flat_map_app|done]. Qed.

(** X4. Putting two lists of patterns together gives, up to the order,
    the paths of the one followed by the paths of the other, a path being
    repeated when both lists select it. *)
Theorem collect_paths_patterns_append
    (fnmatchcase : string → string → bool) (fs : outcome (list entry))
    (base_dir : string) (dirs_include patterns1 patterns2 : list string) :
  ∃ l1 l2 l,
    collect_paths fnmatchcase fs base_dir dirs_include patterns1 = Return l1 ∧
    collect_paths fnmatchcase fs base_dir dirs_include patterns2 = Return l2 ∧
    collect_paths fnmatchcase fs base_dir dirs_include (patterns1 ++ patterns2)
    = Return l ∧
    l ≡ₚ l1 ++ l2.
Proof.
  eexists _, _, _. split_and!; [apply collect_paths_blocks..|].
  rewrite <- flat_map_app_Permutation. apply flat_map_Permutation_pointwise.
  intros v. by rewrite block_app_patterns.
Qed.

(** X5. Changing the order of the patterns changes the order of the
    result only: the same paths come out, as often. *)
Theorem collect_paths_patterns_reordered
    (fnmatchcase : string → string → bool) (fs : outcome (list entry))
    (base_dir : string) (dirs_include patterns1 patterns2 : list string) :
  patterns1 ≡ₚ patterns2 →
  ∃ l1 l2,
    collect_paths fnmatchcase fs base_dir dirs_include patterns1 = Return l1 ∧
    collect_paths fnmatchcase fs base_dir dirs_include patterns2 = Return l2 ∧
    l1 ≡ₚ l2.
Proof.
  intros Hperm. eexists _, _. split_and!; [apply collect_paths_blocks..|].
  apply flat_map_Permutation_pointwise. intros v. unfold block.
  destruct (included _ _); [|done]. by apply Permutation_flat_map.
Qed.

Lemma collect_paths_patterns_reordered_witness :
  ∃ l1 l2,
    collect_paths glob_match (Return ex_order_tree) "/repo" LOGIC_DIRS
      ["*.ts"; "*.py"] = Return l1 ∧
    collect_paths glob_match (Return ex_order_tree) "/repo" LOGIC_DIRS
      ["*.py"; "*.ts"] = Return l2 ∧
    l1 ≡ₚ l2.
Proof.
  apply (collect_paths_patterns_reordered glob_match (Return ex_order_tree) "/repo"
           LOGIC_DIRS ["*.ts"; "*.py"] ["*.py"; "*.ts"]).
  apply perm_swap.
Defined.

(** ** The shape of the collected paths *)

Lemma basename_no_sep f : Path.has_sep f = false → Path.basename f = f.
Proof.
  destruct f as [|c f]; [done|]. simpl.
  intros [Hc ->]%orb_false_iff. by rewrite Hc.
Qed.

Lemma basename_app a f :
  Path.has_sep f = false → a = "" ∨ Path.endswith a Path.sep = true →
  Path.basename (a +:+ f) = f.
Proof.
  intros Hf. induction a as [|c a IH]; intros Ha.
  - by apply basename_no_sep.
  - destruct Ha as [|Ha]; [done|]. rewrite app_String. cbn [Path.basename].
    rewrite has_sep_app, Hf, orb_false_r.
    apply endswith_cases in Ha. destruct (Path.has_sep a) eqn:Hs.
    + apply IH. destruct Ha as [[= -> ->]|Ha]; [done|by right].
    + destruct Ha as [[= -> ->]|Ha]; [done|].
      apply endswith_sep_has_sep in Ha. congruence.
Qed.

Lemma with_sep_ends a : with_sep a = "" ∨ Path.endswith (with_sep a) Path.sep = true.
Proof.
  unfold with_sep. destruct (String.eqb_spec a "") as [->|Hne]; [by left|].
  simpl. destruct (Path.endswith a Path.sep) eqn:E; [by right|]. right.
  by rewrite endswith_app_sep.
Qed.

Lemma basename_join a f : valid_name f = true → Path.basename (Path.join a f) = f.
Proof.
  intros Hf. rewrite (join_valid _ _ Hf).
  apply basename_app; [by apply valid_name_no_sep|apply with_sep_ends].
Qed.

Lemma startswith_with_sep a s : Path.startswith (with_sep a +:+ s) a = true.
Proof.
  apply startswith_spec. unfold with_sep. destruct (_ || _); [by eexists|].
  eexists. apply string_app_assoc.
Qed.

(** X6. On a well-formed tree the last component of every collected path
    is the name of a file of the tree, a name that matches one of the
    patterns and is not in [IGNORE_FILES]. *)
Theorem collected_basename
    (fnmatchcase : string → string → bool) (es : list entry)
    (base_dir : string) (dirs_include patterns : list string) :
  wf_tree es = true →
  ∃ l, collect_paths fnmatchcase (Return es) base_dir dirs_include patterns = Return l ∧
    ∀ p, p ∈ l →
      (∃ rel, file_at es rel (Path.basename p)) ∧
      (∃ pattern, pattern ∈ patterns ∧ fnmatchcase (Path.basename p) pattern = true) ∧
      Path.basename p ∉ IGNORE_FILES.
Proof.
  intros Hwf. eexists. split; [apply collect_paths_blocks|].
  intros p (rel & f & pat & Hat & _ & _ & Hpat & Hm & Hi & ->)%elem_of_collected.
  assert (valid_name f = true) as Hf.
  { pose proof (wf_file_at _ _ _ Hwf Hat) as Hv.
    apply Forall_app in Hv as [_ Hv]. by inversion Hv. }
  rewrite (basename_join _ _ Hf). split_and!; [by exists rel|by exists pat|done].
Qed.

Lemma collected_basename_witness :
  ∃ l, collect_paths glob_match (Return ex_tree) "/repo" LOGIC_DIRS LOGIC_PATTERNS
       = Return l ∧
    ∀ p, p ∈ l →
      (∃ rel, file_at ex_tree rel (Path.basename p)) ∧
      (∃ pattern, pattern ∈ LOGIC_PATTERNS ∧ glob_match (Path.basename p) pattern = true) ∧
      Path.basename p ∉ IGNORE_FILES.
Proof. apply (collected_basename glob_match ex_tree). reflexivity. Defined.

(** X7. On a well-formed tree every collected path is [base_dir], a slash
    unless [base_dir] is empty or ends with one, and then the names of the
    directories and of the file, joined by slashes; it starts with
    [base_dir]. *)
Theorem collected_path_shape
    (fnmatchcase : string → string → bool) (es : list entry)
    (base_dir : string) (dirs_include patterns : list string) :
  wf_tree es = true →
  ∃ l, collect_paths fnmatchcase (Return es) base_dir dirs_include patterns = Return l ∧
    ∀ p, p ∈ l →
      Path.startswith p base_dir = true ∧
      ∃ rel f, file_at es rel f ∧
        p = (if String.eqb base_dir "" || Path.endswith base_dir Path.sep
             then base_dir else base_dir +:+ Path.sep)
            +:+ String.concat Path.sep (rel ++ [f]).
Proof.
  intros Hwf. eexists. split; [apply collect_paths_blocks|].
  intros p (rel & f & pat & Hat & _ & _ & _ & _ & _ & ->)%elem_of_collected.
  rewrite join_path_of. pose proof (wf_file_at _ _ _ Hwf Hat) as Hv.
  destruct (rel ++ [f]) as [|n names] eqn:E; [by destruct rel|].
  rewrite (path_of_valid _ _ _ Hv). split; [apply startswith_with_sep|].
  exists rel, f. split; [done|]. by rewrite E.
Qed.

Lemma collected_path_shape_witness :
  ∃ l, collect_paths glob_match (Return ex_tree) "/repo" LOGIC_DIRS LOGIC_PATTERNS
       = Return l ∧
    ∀ p, p ∈ l →
      Path.startswith p "/repo" = true ∧
      ∃ rel f, file_at ex_tree rel f ∧
        p = (if String.eqb "/repo" "" || Path.endswith "/repo" Path.sep
             then "/repo" else "/repo" +:+ Path.sep)
            +:+ String.concat Path.sep (rel ++ [f]).
Proof. apply (collected_path_shape glob_match ex_tree "/repo"). reflexivity. Defined.

(** A relative path that starts with [src/] and more is that of a
    directory at least one level below [src]. *)
Lemma relpath_below_src rel t :
  Forall (fun n => valid_name n = true) rel →
  Path.startswith (Path.relpath rel) ("src" +:+ String "/" t) = true →
  ∃ sub rest, rel = "src" :: sub :: rest.
Proof.
  intros Hv Hs. destruct rel as [|r rs]; [done|].
  rewrite (relpath_valid _ _ Hv) in Hs. apply startswith_spec in Hs as [u E].
  apply (f_equal split_sep) in E. rewrite split_sep_concat in E.
  2:{ eapply Forall_impl; [exact Hv|]. apply valid_name_no_sep. }
  rewrite string_app_assoc, split_sep_app in E by done.
  change (String "/" t +:+ u) with (String "/" (t +:+ u)) in E.
  cbn [split_sep] in E. simpl (Ascii.eqb _ _) in E. cbv iota in E.
  destruct (split_sep_cons (t +:+ u)) as (w & ws & Hw). rewrite Hw in E.
  injection E as -> ->. by exists w, ws.
Qed.

(** X8. With prefixes taken from [LOGIC_DIRS] and [STYLE_DIRS], every
    collected file lies in a directory at least one level below [src]:
    nothing at the root, nothing directly in [src], and nothing in any
    other directory of the root, the output directory [trace] among
    them. *)
Theorem collected_below_src
    (fnmatchcase : string → string → bool) (es : list entry)
    (base_dir : string) (dirs_include patterns : list string) :
  wf_tree es = true →
  dirs_include ⊆ LOGIC_DIRS ++ STYLE_DIRS →
  ∃ l, collect_paths fnmatchcase (Return es) base_dir dirs_include patterns = Return l ∧
    ∀ p, p ∈ l →
      ∃ sub rest f, file_at es ("src" :: sub :: rest) f ∧
        p = Path.join (path_of base_dir ("src" :: sub :: rest)) f.
Proof.
  intros Hwf Hsub. eexists. split; [apply collect_paths_blocks|].
  intros p (rel & f & pat & Hat & _ & Hinc & _ & _ & _ & ->)%elem_of_collected.
  apply included_spec in Hinc as (d & Hd%Hsub & Hs).
  pose proof (wf_file_at _ _ _ Hwf Hat) as Hv. apply Forall_app in Hv as [Hv _].
  assert (∃ sub rest, rel = "src" :: sub :: rest) as (sub & rest & ->).
  { unfold LOGIC_DIRS, STYLE_DIRS in Hd. simpl in Hd.
    repeat (apply elem_of_cons in Hd as [->|Hd];
            [by eapply (relpath_below_src rel), Hs|]).
    by apply elem_of_nil in Hd. }
  by exists sub, rest, f.
Qed.

Lemma collected_below_src_witness :
  ∃ l, collect_paths glob_match (Return ex_rerun_tree) "/repo"
         (LOGIC_DIRS ++ STYLE_DIRS) LOGIC_PATTERNS = Return l ∧
    ∀ p, p ∈ l →
      ∃ sub rest f, file_at ex_rerun_tree ("src" :: sub :: rest) f ∧
        p = Path.join (path_of "/repo" ("src" :: sub :: rest)) f.
Proof.
  apply (collected_below_src glob_match ex_rerun_tree "/repo").
  - reflexivity.
  - done.
Defined.

(** ** Ignored directories *)

Section pruning.

Local Abbreviation keep := not_ignored_dir.
Local Abbreviation below := (descend not_ignored_dir (visits_entry not_ignored_dir)).

Lemma file_names_app es1 es2 : file_names (es1 ++ es2) = file_names es1 ++ file_names es2.
Proof. unfold file_names. by rewrite List.filter_app, fmap_app. Qed.

Lemma dir_names_app es1 es2 : dir_names (es1 ++ es2) = dir_names es1 ++ dir_names es2.
Proof. unfold dir_names. by rewrite List.filter_app, fmap_app. Qed.

Lemma file_names_without_ignored es :
  file_names (flat_map without_ignored es) = file_names es.
Proof.
  induction es as [|e es IH]; [done|]. cbn [flat_map].
  rewrite file_names_app, IH. destruct e as [name data|name scan]; [done|].
  simpl. by destruct (keep name).
Qed.

Lemma dir_names_without_ignored es :
  List.filter keep (dir_names (flat_map without_ignored es))
  = List.filter keep (dir_names es).
Proof.
  induction es as [|e es IH]; [done|]. cbn [flat_map].
  rewrite dir_names_app, List.filter_app, IH.
  destruct e as [name data|name scan]; [done|].
  change (dir_names (Dir name scan :: es)) with (name :: dir_names es).
  cbn [without_ignored List.filter]. destruct (keep name) eqn:E; [|done].
  change (dir_names [Dir name _]) with [name]. simpl. by rewrite E.
Qed.

Lemma visits_dir_without_ignored es top rel :
  Forall (fun e => ∀ top rel, flat_map (below top rel) (without_ignored e)
                              = below top rel e) es →
  visits_dir keep (visits_entry keep) top rel (Return (flat_map without_ignored es))
  = visits_dir keep (visits_entry keep) top rel (Return es).
Proof.
  intros IH. cbn [visits_dir].
  rewrite file_names_without_ignored, dir_names_without_ignored. f_equal.
  induction IH as [|e es He _ IHes]; [done|]. cbn [flat_map].
  by rewrite flat_map_app, He, IHes.
Qed.

Lemma below_without_ignored e top rel :
  flat_map (below top rel) (without_ignored e) = below top rel e.
Proof.
  revert top rel. induction e as [name data|name err|name es IH] using entry_ind;
    intros top rel; cbn [without_ignored].
  - done.
  - destruct (keep name) eqn:E; [|by unfold descend; rewrite E].
    cbn [flat_map]. by rewrite app_nil_r.
  - destruct (keep name) eqn:E; [|by unfold descend; rewrite E].
    cbn [flat_map]. rewrite app_nil_r. unfold descend. rewrite E.
    cbn [visits_entry]. by apply visits_dir_without_ignored.
Qed.

Lemma visits_without_ignored es top :
  visits keep top (Return (flat_map without_ignored es)) = visits keep top (Return es).
Proof.
  apply visits_dir_without_ignored, Forall_forall. intros e _.
  apply below_without_ignored.
Qed.

End pruning.

(** X9. Pruning is deletion: the walk yields the same items, and
    [collect_paths] returns the same list, as on the tree from which every
    directory with a name of [IGNORE_DIRS] has been removed, with all that
    lies below it, at every depth. *)
Theorem ignored_dirs_as_deleted
    (fnmatchcase : string → string → bool) (es : list entry)
    (base_dir : string) (dirs_include patterns : list string) :
  os_walk None not_ignored_dir base_dir (Return (flat_map without_ignored es))
  = os_walk None not_ignored_dir base_dir (Return es) ∧
  collect_paths fnmatchcase (Return (flat_map without_ignored es)) base_dir
    dirs_include patterns
  = collect_paths fnmatchcase (Return es) base_dir dirs_include patterns.
Proof.
  split.
  - by rewrite !os_walk_None, visits_without_ignored.
  - by rewrite !collect_paths_blocks, visits_without_ignored.
Qed.

(** ** The lists of a run *)



(** ** What a run leaves behind *)

Lemma io_bind_Raise {A B : Type} (f : A → io B) (m : io A) (w w' : world)
    (err : OSError) :
  m w = (Raise err, w') → (m ≫= f) w = (Raise err, w').
Proof. intros H. unfold mbind, io_bind. by rewrite H. Qed.

Lemma put_entry_id e es :
  find_entry (entry_name e) es = Some e → put_entry e es = es.
Proof.
  unfold find_entry. induction es as [|e0 es IH]; simpl; [done|].
  destruct (String.eqb (entry_name e0) (entry_name e)).
  - by intros [= ->].
  - intros H. by rewrite IH.
Qed.

Lemma find_entry_app_ne name e es :
  entry_name e ≠ name → find_entry name (es ++ [e]) = find_entry name es.
Proof.
  intros Hne%String.eqb_neq. unfold find_entry.
  induction es as [|e0 es IH]; simpl; [by rewrite Hne|].
  by destruct (String.eqb (entry_name e0) name).
Qed.

Lemma with_trace_ready es :
  output_ready es = true →
  find_entry "trace" (with_trace es) = Some (Dir "trace" (Return (trace_listing es))) ∧
  from_option is_dir false (find_entry "logic_files.txt" (trace_listing es)) = false ∧
  from_option is_dir false (find_entry "logic_style_files.txt" (trace_listing es))
  = false.
Proof.
  unfold output_ready, with_trace, trace_listing.
  destruct (find_entry "trace" es) as [[|d [des|]]|] eqn:Hfind; try done.
  - intros [H1 H2]%andb_true_iff. apply negb_true_iff in H1, H2.
    destruct (find_entry_Some _ _ _ Hfind) as [Hd _]. simpl in Hd. by subst d.
  - intros _. split; [|done]. by apply (find_entry_new (Dir "trace" (Return []))).
Qed.

Lemma makedirs_with_trace cwd es out :
  output_ready es = true →
  makedirs_exist_ok "trace" (World cwd (Return es) out)
  = (Return (), World cwd (Return (with_trace es)) out).
Proof.
  unfold output_ready, makedirs_exist_ok, with_trace. cbn [w_root].
  by destruct (find_entry "trace" es) as [[|d [des|]]|].
Qed.

Lemma collect_paths_with_trace fnmatchcase cwd dirs_include patterns es :
  included "." dirs_include = false → included "trace" dirs_include = false →
  collect_paths fnmatchcase (Return (with_trace es)) cwd dirs_include patterns
  = collect_paths fnmatchcase (Return es) cwd dirs_include patterns.
Proof.
  intros H1 H2. unfold with_trace.
  destruct (find_entry "trace" es) eqn:Hfind; [done|].
  by apply collect_paths_new_trace.
Qed.

(** The scans of a tree that a run has left are those of the tree before
    the run. *)
Lemma collect_paths_after_run fnmatchcase cwd dirs_include patterns es logic combined :
  included "." dirs_include = false → included "trace" dirs_include = false →
  output_ready es = true →
  collect_paths fnmatchcase (Return (tree_after_run logic combined es)) cwd
    dirs_include patterns
  = collect_paths fnmatchcase (Return es) cwd dirs_include patterns.
Proof.
  intros H1 H2 Hready. destruct (with_trace_ready es Hready) as (Hfind & Hn1 & Hn2).
  unfold tree_after_run.
  rewrite (collect_paths_put_trace fnmatchcase cwd dirs_include patterns H1 H2
             _ _ _ _ Hfind).
  - by apply collect_paths_with_trace.
  - rewrite filter_is_dir_put_file; [by apply filter_is_dir_put_file|].
    by rewrite find_put_ne.
Qed.

(** A run that can write its output directory, step by step. *)
Lemma main_run_tree (fnmatchcase : string → string → bool) cwd es out logic combined :
  output_ready es = true →
  collect_paths fnmatchcase (Return es) cwd LOGIC_DIRS LOGIC_PATTERNS = Return logic →
  collect_paths fnmatchcase (Return es) cwd (LOGIC_DIRS ++ STYLE_DIRS) LOGIC_PATTERNS
  = Return combined →
  main fnmatchcase (World cwd (Return es) out)
  = (Return (), World cwd (Return (tree_after_run logic combined es))
                  (out ++ confirmations cwd)).
Proof.
  intros Hready Hlogic Hcombined.
  destruct (with_trace_ready es Hready) as (Hfind & Hn1 & Hn2).
  set (es1 := with_trace es) in *. set (des1 := trace_listing es) in *.
  set (des3 := put_entry (File "logic_files.txt" (lines logic)) des1).
  set (es3 := put_entry (Dir "trace" (Return des3)) es1).
  assert (find_entry "trace" es3 = Some (Dir "trace" (Return des3))) as Hfind3.
  { apply (find_put_eq (Dir "trace" (Return des3))). }
  assert (from_option is_dir false (find_entry "logic_style_files.txt" des3) = false)
    as Hn3.
  { unfold des3. by rewrite find_put_ne. }
  unfold main.
  rewrite (io_bind_Return _ getcwd (World cwd (Return es) out)
             (World cwd (Return es) out) cwd); [|done]. cbv zeta.
  rewrite (io_bind_Return _ _ _ _ _ (makedirs_with_trace cwd es out Hready)).
  fold es1.
  rewrite (io_bind_Return _ (collect _ _ _ _) _ (World cwd (Return es1) out) logic).
  2:{ unfold collect, es1. cbn [w_root].
      by rewrite collect_paths_with_trace, Hlogic. }
  rewrite (io_bind_Return _ _ _ _ _
             (write_lines_ok _ _ _ _ _ _ _ _ Hfind Hn1)).
  rewrite (io_bind_Return _ (collect _ _ _ _) _
             (with_file cwd es1 "trace" des1 "logic_files.txt" (lines logic) out)
             combined).
  2:{ unfold collect, with_file. cbn [w_root].
      rewrite (collect_paths_put_trace fnmatchcase cwd (LOGIC_DIRS ++ STYLE_DIRS)
                 LOGIC_PATTERNS eq_refl eq_refl _ _ _ _ Hfind).
      - unfold es1. by rewrite collect_paths_with_trace, Hcombined.
      - by apply filter_is_dir_put_file. }
  unfold with_file at 1. fold des3. fold es3.
  rewrite (io_bind_Return _ _ _ _ _
             (write_lines_ok _ _ _ _ _ _ _ _ Hfind3 Hn3)).
  unfold with_file, print, mbind, io_bind. cbn [w_cwd w_root w_stdout].
  unfold tree_after_run, es3, confirmations. fold es1 des1 des3.
  rewrite (put_put (Dir "trace" (Return des3))) by done.
  by rewrite <- app_assoc.
Qed.

Lemma tree_after_run_again es logic combined :
  output_ready es = true →
  output_ready (tree_after_run logic combined es) = true ∧
  tree_after_run logic combined (tree_after_run logic combined es)
  = tree_after_run logic combined es.
Proof.
  intros Hready. destruct (with_trace_ready es Hready) as (Hfind & Hn1 & Hn2).
  set (F1 := File "logic_files.txt" (lines logic)).
  set (F2 := File "logic_style_files.txt" (lines combined)).
  set (D := put_entry F2 (put_entry F1 (trace_listing es))).
  assert (tree_after_run logic combined es
          = put_entry (Dir "trace" (Return D)) (with_trace es)) as ET by done.
  assert (find_entry "trace" (tree_after_run logic combined es)
          = Some (Dir "trace" (Return D))) as HT.
  { rewrite ET. apply (find_put_eq (Dir "trace" (Return D))). }
  assert (find_entry "logic_files.txt" D = Some F1) as H1.
  { unfold D. rewrite find_put_ne by done. apply (find_put_eq F1). }
  assert (find_entry "logic_style_files.txt" D = Some F2) as H2.
  { apply (find_put_eq F2). }
  split.
  - unfold output_ready. by rewrite HT, H1, H2.
  - unfold tree_after_run at 1. unfold with_trace, trace_listing. rewrite HT.
    fold F1 F2. rewrite (put_entry_id F1 D H1), (put_entry_id F2 D H2).
    by apply (put_entry_id (Dir "trace" (Return D))).
Qed.

(** X11. A run that can write its output directory leaves a tree on which
    a second run succeeds as well, and the second run leaves that tree as
    it is, the two files holding what the first run wrote; it prints its
    two lines again. *)
Theorem main_twice
    (fnmatchcase : string → string → bool) (cwd : string) (es : list entry)
    (out : list string) :
  output_ready es = true →
  ∃ w1 w2,
    main fnmatchcase (World cwd (Return es) out) = (Return (), w1) ∧
    main fnmatchcase w1 = (Return (), w2) ∧
    w_root w2 = w_root w1 ∧
    w_stdout w2 = out ++ confirmations cwd ++ confirmations cwd.
Proof.
  intros Hready.
  destruct (collect_paths_ignores_errors fnmatchcase (Return es) cwd
              LOGIC_DIRS LOGIC_PATTERNS) as [logic Hlogic].
  destruct (collect_paths_ignores_errors fnmatchcase (Return es) cwd
              (LOGIC_DIRS ++ STYLE_DIRS) LOGIC_PATTERNS) as [combined Hcombined].
  destruct (tree_after_run_again es logic combined Hready) as [Hready' Hsame].
  eexists _, _. split_and!.
  - by apply main_run_tree.
  - apply main_run_tree; [done|..].
    + by rewrite collect_paths_after_run.
    + by rewrite collect_paths_after_run.
  - cbn [w_root]. by rewrite Hsame.
  - cbn [w_stdout]. by rewrite <- app_assoc.
Qed.

Lemma main_twice_witness :
  ∃ w1 w2,
    main glob_match (World "/repo" (Return ex_tree) []) = (Return (), w1) ∧
    main glob_match w1 = (Return (), w2) ∧
    w_root w2 = w_root w1 ∧
    w_stdout w2 = [] ++ confirmations "/repo" ++ confirmations "/repo".
Proof. apply (main_twice glob_match "/repo" ex_tree []). reflexivity. Defined.

(** X12. A run that can write its output directory touches nothing but
    its two files: every entry of the working directory other than
    [trace] is as before, and so is every entry of [trace] other than
    [logic_files.txt] and [logic_style_files.txt]. *)
Theorem main_touches_only_outputs
    (fnmatchcase : string → string → bool) (cwd : string) (es : list entry)
    (out : list string) :
  output_ready es = true →
  ∃ es' des',
    main fnmatchcase (World cwd (Return es) out)
    = (Return (), World cwd (Return es') (out ++ confirmations cwd)) ∧
    find_entry "trace" es' = Some (Dir "trace" (Return des')) ∧
    (∀ name, name ≠ "trace" → find_entry name es' = find_entry name es) ∧
    (∀ name, name ≠ "logic_files.txt" → name ≠ "logic_style_files.txt" →
       find_entry name des' = find_entry name (trace_listing es)).
Proof.
  intros Hready.
  destruct (collect_paths_ignores_errors fnmatchcase (Return es) cwd
              LOGIC_DIRS LOGIC_PATTERNS) as [logic Hlogic].
  destruct (collect_paths_ignores_errors fnmatchcase (Return es) cwd
              (LOGIC_DIRS ++ STYLE_DIRS) LOGIC_PATTERNS) as [combined Hcombined].
  eexists _, _. split_and!.
  - by apply main_run_tree.
  - apply (find_put_eq (Dir "trace" _)).
  - intros name Hne. unfold tree_after_run. rewrite find_put_ne by done.
    unfold with_trace. destruct (find_entry "trace" es); [done|].
    by apply find_entry_app_ne.
  - intros name Hne1 Hne2. by rewrite !find_put_ne.
Qed.

Lemma main_touches_only_outputs_witness :
  ∃ es' des',
    main glob_match (World "/repo" (Return ex_rerun_tree) [])
    = (Return (), World "/repo" (Return es') ([] ++ confirmations "/repo")) ∧
    find_entry "trace" es' = Some (Dir "trace" (Return des')) ∧
    (∀ name, name ≠ "trace" → find_entry name es' = find_entry name ex_rerun_tree) ∧
    (∀ name, name ≠ "logic_files.txt" → name ≠ "logic_style_files.txt" →
       find_entry name des' = find_entry name (trace_listing ex_rerun_tree)).
Proof.
  apply (main_touches_only_outputs glob_match "/repo" ex_rerun_tree []). reflexivity.
Defined.

(** ** Runs that fail *)

(** X13. When [trace] exists in the working directory and is not a
    directory, [main] raises [FileExistsError] at once: nothing is
    scanned, written or printed, and the tree is as before. *)
Theorem main_trace_is_a_file
    (fnmatchcase : string → string → bool) (cwd : string) (es : list entry)
    (out : list string) (name data : string) :
  find_entry "trace" es = Some (File name data) →
  main fnmatchcase (World cwd (Return es) out)
  = (Raise FileExistsError, World cwd (Return es) out).
Proof.
  intros Hfind. unfold main.
  rewrite (io_bind_Return _ getcwd (World cwd (Return es) out)
             (World cwd (Return es) out) cwd); [|done]. cbv zeta.
  apply io_bind_Raise. unfold makedirs_exist_ok. cbn [w_root]. by rewrite Hfind.
Qed.

Lemma main_trace_is_a_file_witness :
  main glob_match (World "/repo" (Return ex_trace_file_tree) [])
  = (Raise FileExistsError, World "/repo" (Return ex_trace_file_tree) []).
Proof.
  apply (main_trace_is_a_file glob_match "/repo" ex_trace_file_tree [] "trace" "notes").
  reflexivity.
Defined.

(** X14. The two files are not written as one: when
    [trace/logic_style_files.txt] is a directory, [main] raises
    [IsADirectoryError] after it has written [trace/logic_files.txt] in
    full, and before it prints anything. *)
Theorem main_second_output_blocked
    (fnmatchcase : string → string → bool) (cwd : string) (es : list entry)
    (out : list string) (d : string) (des : list entry)
    (name : string) (scan : outcome (list entry)) :
  find_entry "trace" es = Some (Dir d (Return des)) →
  from_option is_dir false (find_entry "logic_files.txt" des) = false →
  find_entry "logic_style_files.txt" des = Some (Dir name scan) →
  ∃ logic w',
    collect_paths fnmatchcase (Return es) cwd LOGIC_DIRS LOGIC_PATTERNS = Return logic ∧
    main fnmatchcase (World cwd (Return es) out) = (Raise IsADirectoryError, w') ∧
    read_file w' "trace" "logic_files.txt" = Some (lines logic) ∧
    w_stdout w' = out.
Proof.
  intros Hfind Hn1 Hn2.
  destruct (collect_paths_ignores_errors fnmatchcase (Return es) cwd
              LOGIC_DIRS LOGIC_PATTERNS) as [logic Hlogic].
  destruct (collect_paths_ignores_errors fnmatchcase (Return es) cwd
              (LOGIC_DIRS ++ STYLE_DIRS) LOGIC_PATTERNS) as [combined Hcombined].
  set (w1 := with_file cwd es "trace" des "logic_files.txt" (lines logic) out).
  exists logic, w1. split_and!; [done| |..].
  - unfold main.
    rewrite (io_bind_Return _ getcwd (World cwd (Return es) out)
               (World cwd (Return es) out) cwd); [|done]. cbv zeta.
    rewrite (io_bind_Return _ (makedirs_exist_ok _) _ (World cwd (Return es) out) ()).
    2:{ unfold makedirs_exist_ok. cbn [w_root]. by rewrite Hfind. }
    rewrite (io_bind_Return _ (collect _ _ _ _) _ (World cwd (Return es) out) logic).
    2:{ unfold collect. cbn [w_root]. by rewrite Hlogic. }
    rewrite (io_bind_Return _ _ _ _ _
               (write_lines_ok _ _ _ _ _ _ _ _ Hfind Hn1)). fold w1.
    rewrite (io_bind_Return _ (collect _ _ _ _) _ w1 combined).
    2:{ unfold collect, w1, with_file. cbn [w_root].
        rewrite (collect_paths_put_trace fnmatchcase cwd (LOGIC_DIRS ++ STYLE_DIRS)
                   LOGIC_PATTERNS eq_refl eq_refl _ _ _ _ Hfind); [by rewrite Hcombined|].
        by apply filter_is_dir_put_file. }
    apply io_bind_Raise, io_bind_Raise.
    unfold open_w, in_dir, w1, with_file. cbn [w_root].
    rewrite (find_put_eq (Dir "trace" _)), find_put_ne by done. by rewrite Hn2.
  - unfold read_file, w1, with_file. cbn [w_root].
    rewrite (find_put_eq (Dir "trace" _)).
    by rewrite (find_put_eq (File "logic_files.txt" _)).
  - done.
Qed.

Lemma main_second_output_blocked_witness :
  ∃ logic w',
    collect_paths glob_match (Return ex_blocked_tree) "/repo" LOGIC_DIRS LOGIC_PATTERNS
    = Return logic ∧
    main glob_match (World "/repo" (Return ex_blocked_tree) [])
    = (Raise IsADirectoryError, w') ∧
    read_file w' "trace" "logic_files.txt" = Some (lines logic) ∧
    w_stdout w' = [].
Proof.
  apply (main_second_output_blocked glob_match "/repo" ex_blocked_tree [] "trace"
           [Dir "logic_style_files.txt" (Return [])] "logic_style_files.txt" (Return []));
    reflexivity.
Defined.

(** ** The names the script selects *)

Lemma endswith_spec s t : Path.endswith s t = true ↔ ∃ u, s = u +:+ t.
Proof.
  split.
  - induction s as [|c s IH]; intros H.
    + destruct t; [by exists ""|done].
    + apply endswith_cases in H as [<-|H]; [by exists ""|].
      destruct (IH H) as [u ->]. by exists (String c u).
  - intros [u ->]. induction u as [|c u IH]; [apply endswith_refl|].
    rewrite app_String. cbn [Path.endswith]. by rewrite IH, orb_true_r.
Qed.

(** X15. A name matches one of the patterns of the script exactly when it
    ends with [.ts], [.tsx], [.js] or [.py], whatever comes before, a
    leading dot or nothing at all included; and it matches one pattern at
    most. *)
Theorem logic_patterns_select_by_ending (f : string) :
  (existsb (glob_match f) LOGIC_PATTERNS = true ↔
   ∃ stem ending, ending ∈ logic_suffixes ∧ f = stem +:+ ending) ∧
  match_count glob_match LOGIC_PATTERNS f ≤ 1.
Proof.
  split; [|apply logic_patterns_exclusive].
  unfold LOGIC_PATTERNS, logic_suffixes, glob_match. cbn [existsb].
  rewrite !glob_star_literal by done. rewrite !orb_true_iff, !endswith_spec.
  split.
  - intros [[stem ->]|[[stem ->]|[[stem ->]|[[stem ->]|?]]]]; [..|done];
      eexists stem, _; (split; [|done]); set_solver.
  - intros (stem & ending & Hin & ->).
    repeat (apply elem_of_cons in Hin as [->|Hin]; [by eauto 6|]).
    by apply elem_of_nil in Hin.
Qed.
